(** * The step executor of the build engine: timeout and compose steps,
      and the configuration validator's error rendering.

    The Go sources are embedded shallowly.  A step's [Run] blocks on channels
    and runs next to its children, so it is written as a function of what its
    environment delivers to it (which case of a [select] fires, in which
    order), and it reports what it did to that environment as a list of
    effects. *)

From stdpp Require Import base strings list gmap.
From Stdlib Require Import ZArith Lia Ascii String DecimalString.

Local Open Scope string_scope.
Local Open Scope Z_scope.
Local Open Scope list_scope.

(** ** Values shared by the [exec] package *)

Module exec.

(** A non-nil Go [error].  The two sentinels are compared by identity in the
    sources, every other error is told by its message. *)
Inductive err : Type :=
| ErrStepTimedOut                 (* errors.New("process-exceeded-timeout-limit") *)
| ErrInterrupted
| ErrMsg (msg : string).

(** A Go [error]: [None] is [nil]. *)
Definition error : Type := option err.

#[export] Instance err_eq_dec : EqDecision err.
Proof. solve_decision. Defined.

(** [os.Signal] *)
Inductive Signal : Type := Interrupt | Kill | Sig (n : nat).

#[export] Instance Signal_eq_dec : EqDecision Signal.
Proof. solve_decision. Defined.

(** [*SourceRepository]: the registry is only passed along, by address. *)
Inductive SourceRepository : Type := repoAt (addr : nat).

#[export] Instance SourceRepository_eq_dec : EqDecision SourceRepository.
Proof. solve_decision. Defined.

(** The typed slots a caller hands to [Result(x interface{})]: [x] points
    to a [Success], an [ExitStatus] or a [VersionInfo]. *)
Definition Success : Type := bool.
Definition ExitStatus : Type := Z.
Record VersionInfo : Type := mkVersionInfo {
  Version : list (string * string);
  Metadata : list (string * string)
}.

Inductive slot : Type := SuccessPtr | ExitStatusPtr | VersionInfoPtr.

#[export] Instance slot_eq_dec : EqDecision slot.
Proof. solve_decision. Defined.

Definition pointee (x : slot) : Type :=
  match x with
  | SuccessPtr => Success
  | ExitStatusPtr => ExitStatus
  | VersionInfoPtr => VersionInfo
  end.

(** What a step answers to [Result]: the new content of the slot and
    whether the slot was populated. *)
Definition ResultFn : Type := forall x : slot, pointee x -> pointee x * bool.

(** The [Step] interface as a combinator uses it on a child it holds.
    [Run] of a child is started on a goroutine of its own; what the child
    does there reaches the parent through channels only. *)
Record Step : Type := mkStep {
  stepName : string;
  stepResult : ResultFn
}.

(** The [StepFactory] interface. *)
Record StepFactory : Type := mkStepFactory {
  Using : Step -> SourceRepository -> Step
}.

(** [time.Duration], in nanoseconds. *)
Definition Duration : Type := Z.

(** The one function of Go's [time] package the step needs. *)
Class GoTime : Type := {
  ParseDuration : string -> Duration + err
}.

End exec.

(** ** [time.ParseDuration], as Go's library documents it

    A duration string is a possibly signed sequence of decimal numbers, each
    with an optional fraction and a unit suffix, such as 300ms, -1.5h or
    2h45m, or the single character 0.  The units are ns, us, ms, s, m
    and h. *)

Module gotime.
Import exec.

Definition is_digit (c : ascii) : bool :=
  let n := nat_of_ascii c in (48 <=? n)%nat && (n <=? 57)%nat.

Definition digit_val (c : ascii) : Z := Z.of_nat (nat_of_ascii c) - 48.

Definition maxInt64 : Z := 2 ^ 63 - 1.

(** [leadingInt]: the leading digits of [s] as a number; [None] on overflow. *)
Fixpoint leadingInt (x : Z) (s : string) : option (Z * string) :=
  match s with
  | String c s' =>
      if is_digit c then
        if (maxInt64 / 10 <? x)%Z then None
        else
          let x' := x * 10 + digit_val c in
          if (maxInt64 <? x')%Z then None else leadingInt x' s'
      else Some (x, s)
  | EmptyString => Some (x, s)
  end.

(** [leadingFraction]: the digits after the point, as numerator and scale. *)
Fixpoint leadingFraction (f scale : Z) (s : string) : Z * Z * string :=
  match s with
  | String c s' =>
      if is_digit c then leadingFraction (f * 10 + digit_val c) (scale * 10) s'
      else (f, scale, s)
  | EmptyString => (f, scale, s)
  end.

(** The unit: every character up to the next digit or point. *)
Fixpoint takeUnit (s : string) : string * string :=
  match s with
  | String c s' =>
      if is_digit c || bool_decide (c = "."%char) then (EmptyString, s)
      else let '(u, r) := takeUnit s' in (String c u, r)
  | EmptyString => (EmptyString, EmptyString)
  end.

Definition micro_latin : string :=
  String (ascii_of_nat 194) (String (ascii_of_nat 181) "s").
Definition micro_greek : string :=
  String (ascii_of_nat 206) (String (ascii_of_nat 188) "s").

Definition unitMap (u : string) : option Z :=
  if bool_decide (u = "ns") then Some 1
  else if bool_decide (u = "us") then Some 1000
  else if bool_decide (u = micro_latin) then Some 1000
  else if bool_decide (u = micro_greek) then Some 1000
  else if bool_decide (u = "ms") then Some 1000000
  else if bool_decide (u = "s") then Some 1000000000
  else if bool_decide (u = "m") then Some 60000000000
  else if bool_decide (u = "h") then Some 3600000000000
  else None.

Definition invalid (orig : string) : err :=
  ErrMsg ("time: invalid duration " +:+ orig).

(** The loop over the groups of number and unit.  Every turn consumes at
    least one character, so the length of the input bounds the turns. *)
Fixpoint groups (fuel : nat) (orig : string) (d : Z) (s : string) : Z + err :=
  match fuel with
  | O => inl d
  | S fuel' =>
      match s with
      | EmptyString => inl d
      | String c _ =>
          if negb (is_digit c || bool_decide (c = "."%char)) then inr (invalid orig)
          else
            match leadingInt 0 s with
            | None => inr (invalid orig)
            | Some (v, s1) =>
                let pre := negb (String.length s =? String.length s1)%nat in
                let '(f, scale, s2, post) :=
                  match s1 with
                  | String "." s1' =>
                      let '(f, scale, s2) := leadingFraction 0 1 s1' in
                      (f, scale, s2, negb (String.length s1' =? String.length s2)%nat)
                  | _ => (0, 1, s1, false)
                  end in
                if negb pre && negb post then inr (invalid orig)
                else
                  let '(u, s3) := takeUnit s2 in
                  if bool_decide (u = EmptyString)
                  then inr (ErrMsg ("time: missing unit in duration " +:+ orig))
                  else
                    match unitMap u with
                    | None =>
                        inr (ErrMsg ("time: unknown unit " +:+ u +:+ " in duration " +:+ orig))
                    | Some unit =>
                        let v' := v * unit + f * unit / scale in
                        if (maxInt64 <? d + v')%Z then inr (invalid orig)
                        else groups fuel' orig (d + v') s3
                    end
            end
      end
  end.

Definition parseDuration (orig : string) : Duration + err :=
  let '(neg, s) :=
    match orig with
    | String "-" s' => (true, s')
    | String "+" s' => (false, s')
    | _ => (false, orig)
    end in
  if bool_decide (s = "0") then inl 0
  else if bool_decide (s = EmptyString) then inr (invalid orig)
  else
    match groups (String.length s) orig 0 s with
    | inl d => inl (if neg then - d else d)
    | inr e => inr e
    end.

#[export] Instance go_time : GoTime := {| ParseDuration := parseDuration |}.

End gotime.

(** ** The timeout step (exec/timeout_step.go) *)

Module timeout_step.
Import exec.

Record timeout : Type := mkTimeout {
  step : StepFactory;
  runStep : option Step;        (* nil until [Using] binds the child *)
  duration : string;
  timedOut : bool
}.

Definition Timeout (step : StepFactory) (duration : string) : timeout :=
  {| step := step; runStep := None; duration := duration; timedOut := false |}.

(** [Using] has a value receiver: it fills [runStep] in its copy of the
    struct and returns the address of that copy. *)
Definition Using (ts : timeout) (prev : Step) (repo : SourceRepository) : timeout :=
  {| step := step ts;
     runStep := Some (exec.Using (step ts) prev repo);
     duration := duration ts;
     timedOut := timedOut ts |}.

(** What [Run] and [Release] do to their surroundings, in order. *)
Inductive effect : Type :=
| Invoke                         (* ifrit.Invoke(ts.runStep): the child's Run is started *)
| CloseReady                     (* close(ready) *)
| NewTimer (d : Duration)        (* time.NewTimer(parsedDuration) *)
| SignalChild (sig : Signal)     (* runProcess.Signal(sig) *)
| ReleaseChild.                  (* ts.runStep.Release() *)

#[export] Instance effect_eq_dec : EqDecision effect.
Proof. solve_decision. Defined.

(** The case of the [select] that fires in one turn of the loop. *)
Inductive received : Type :=
| FromWait (runErr : error)      (* runErr = <-runProcess.Wait(): the child's Run returned *)
| FromTimer                      (* <-timer.C *)
| FromSignals (sig : Signal).    (* sig = <-signals *)

(** What the surroundings of one [Run] deliver.  [ifrit.Invoke] returns once
    the child has closed its ready channel or has exited, and blocks as
    long as it has done neither; [selects] lists the cases the loop's
    [select] takes, turn by turn, and the [select] blocks when the list is
    used up. *)
Record schedule : Type := mkSchedule {
  childReadyOrExited : bool;
  selects : list received
}.

Inductive outcome : Type :=
| Blocked                        (* Run has not returned *)
| Returned (e : error)
| Panicked.                      (* Run on a struct whose runStep is nil *)

Record loopState : Type := mkLoop {
  ts_timedOut : bool;
  runErr : error;
  timeoutErr : error;
  done : list effect;
  exited : bool                  (* break dance *)
}.

(** The loop labelled [dance]. *)
Fixpoint dance (st : loopState) (sel : list received) : loopState :=
  match sel with
  | [] => st
  | FromWait e :: _ =>
      {| ts_timedOut := ts_timedOut st; runErr := e; timeoutErr := timeoutErr st;
         done := done st; exited := true |}
  | FromTimer :: sel' =>
      dance {| ts_timedOut := true; runErr := runErr st;
               timeoutErr := Some ErrStepTimedOut;
               done := done st ++ [SignalChild Kill]; exited := false |} sel'
  | FromSignals sig :: sel' =>
      dance {| ts_timedOut := ts_timedOut st; runErr := runErr st;
               timeoutErr := timeoutErr st;
               done := done st ++ [SignalChild sig]; exited := false |} sel'
  end.

Definition set_timedOut (ts : timeout) (b : bool) : timeout :=
  {| step := step ts; runStep := runStep ts; duration := duration ts; timedOut := b |}.

Section Run.
Context `{GoTime}.

(** [Run]: the step after the call, what the call did, and how it ended. *)
Definition Run (ts : timeout) (sch : schedule) : timeout * list effect * outcome :=
  match runStep ts with
  | None => (ts, [], Panicked)
  | Some _ =>
      if negb (childReadyOrExited sch) then (ts, [Invoke], Blocked)
      else
        match ParseDuration (duration ts) with
        | inr e => (ts, [Invoke; CloseReady], Returned (Some e))
        | inl parsedDuration =>
            let st := dance {| ts_timedOut := timedOut ts; runErr := None;
                               timeoutErr := None;
                               done := [Invoke; CloseReady; NewTimer parsedDuration];
                               exited := false |} (selects sch) in
            let ts' := set_timedOut ts (ts_timedOut st) in
            if negb (exited st) then (ts', done st, Blocked)
            else
              match timeoutErr st with
              | Some e => (ts', done st, Returned (Some e))
              | None =>
                  match runErr st with
                  | Some e => (ts', done st, Returned (Some e))
                  | None => (ts', done st, Returned None)
                  end
              end
        end
  end.
End Run.

Definition Release (ts : timeout) : list effect + unit :=
  match runStep ts with
  | Some _ => inl [ReleaseChild]
  | None => inr tt
  end.

(** [Result]: only a [*Success] is answered; the child is asked for its
    own [Success] through a fresh variable, whose zero value is false, and
    what the child returns is dropped.  [None] is the nil dereference of a
    struct that [Using] did not bind. *)
Definition Result (ts : timeout) (x : slot) : pointee x -> option (pointee x * bool) :=
  match x with
  | SuccessPtr => fun _ =>
      match runStep ts with
      | Some child =>
          let success : Success := fst (stepResult child SuccessPtr false) in
          Some (success && negb (timedOut ts), true)
      | None => None
      end
  | ExitStatusPtr => fun v => Some (v, false)
  | VersionInfoPtr => fun v => Some (v, false)
  end.

End timeout_step.

(** ** The compose step and the harness of exec/compose_test.go

    The test file drives [Compose(fakeStepFactoryA, fakeStepFactoryB)] with
    two fake steps whose [RunStub] waits on a start and on a finish channel.
    The fake steps, the fake factories and the channels are embedded from
    the test; the compose step itself is modelled from the specification. *)

Module compose_step.
Import exec.

(** The three [*fakes.FakeStep] of the test, by address. *)
Inductive stepId : Type := inStep | outStepA | outStepB.

#[export] Instance stepId_eq_dec : EqDecision stepId.
Proof. solve_decision. Defined.

(** The two ready channels in play: the one of the compose step's own
    process, which [process.Ready()] observes, and the one of the process
    on which the first step runs. *)
Inductive chan : Type := readyOfProcess | readyOfFirst.

#[export] Instance chan_eq_dec : EqDecision chan.
Proof. solve_decision. Defined.

(** Where a [RunStub] stands. *)
Inductive stage : Type :=
| Idle                       (* Run has not been called *)
| Starting                   (* in the first select *)
| Running                    (* past close(ready), in the second select *)
| Exited (e : error).        (* Run has returned e *)

#[export] Instance stage_eq_dec : EqDecision stage.
Proof. solve_decision. Defined.

Record FakeStep : Type := mkFakeStep {
  runCalls : nat;                  (* RunCallCount() *)
  now : stage;
  ready : chan;                    (* the ready channel Run was handed *)
  closedReady : bool;              (* RunStub has executed close(ready) *)
  received : list Signal;          (* what it took from its signals channel *)
  releaseCalls : nat               (* ReleaseCallCount() *)
}.

Definition newFakeStep : FakeStep :=
  {| runCalls := 0; now := Idle; ready := readyOfFirst; closedReady := false;
     received := []; releaseCalls := 0 |}.

(** Calling [Run(signals, ready)] on a fake step enters [RunStub]. *)
Definition callRun (f : FakeStep) (r : chan) : FakeStep :=
  {| runCalls := S (runCalls f); now := Starting; ready := r; closedReady := false;
     received := received f; releaseCalls := releaseCalls f |}.

Definition callRelease (f : FakeStep) : FakeStep :=
  {| runCalls := runCalls f; now := now f; ready := ready f; closedReady := closedReady f;
     received := received f; releaseCalls := S (releaseCalls f) |}.

Definition at_stage (f : FakeStep) (st : stage) (closes : bool) : FakeStep :=
  {| runCalls := runCalls f; now := st; ready := ready f;
     closedReady := closedReady f || closes;
     received := received f; releaseCalls := releaseCalls f |}.

(** [RunStub], first select, [case err := <-start]: a non-nil error is
    returned, otherwise the step closes [ready] and moves on. *)
Definition recvStart (f : FakeStep) (e : error) : FakeStep :=
  match e with
  | Some _ => at_stage f (Exited e) false
  | None => at_stage f Running true
  end.

(** [RunStub], second select, [case err := <-finish]. *)
Definition recvFinish (f : FakeStep) (e : error) : FakeStep :=
  at_stage f (Exited e) false.

(** [RunStub], [case <-signals] of either select; a step that is not in a
    select takes nothing from the channel. *)
Definition recvSignal (f : FakeStep) (sig : Signal) : FakeStep :=
  match now f with
  | Starting | Running =>
      {| runCalls := runCalls f; now := Exited (Some ErrInterrupted); ready := ready f;
         closedReady := closedReady f;
         received := received f ++ [sig]; releaseCalls := releaseCalls f |}
  | _ => f
  end.

(** A fake step together with its two channels, [make(chan error, 1)] each:
    [None] is the empty buffer. *)
Record wired : Type := mkWired {
  fake : FakeStep;
  start : option error;
  finish : option error
}.

(** One receive, when the select the step stands in has a value waiting. *)
Definition advance (s : wired) : wired :=
  match now (fake s), start s, finish s with
  | Starting, Some e, _ => {| fake := recvStart (fake s) e; start := None; finish := finish s |}
  | Running, _, Some e => {| fake := recvFinish (fake s) e; start := start s; finish := None |}
  | _, _, _ => s
  end.

(** A step takes at most two values in its life. *)
Definition settle (s : wired) : wired := advance (advance s).

(** A fake factory records the arguments of [Using] and returns the step
    it was told to return. *)
Definition UsingArgs : Type := list (stepId * SourceRepository).

(** How far the compose step's Run has come. *)
Inductive progress : Type :=
| OnFirst                    (* waiting for the first step *)
| OnSecond                   (* inside the second step's Run *)
| Done (e : error).          (* Run has returned e *)

#[export] Instance progress_eq_dec : EqDecision progress.
Proof. solve_decision. Defined.

Record compose : Type := mkCompose {
  prev : stepId;
  repo : SourceRepository;
  firstStep : option stepId;
  secondStep : option stepId;
  signalled : bool;
  progressOf : progress
}.

Record world : Type := mkWorld {
  usingA : UsingArgs;              (* fakeStepFactoryA's calls *)
  usingB : UsingArgs;              (* fakeStepFactoryB's calls *)
  stepA : wired;                   (* outStepA with startA, finishA *)
  stepB : wired;                   (* outStepB with startB, finishB *)
  closedChans : list chan;         (* the ready channels closed so far *)
  step : compose;
  releaseOrder : list stepId       (* the children released, first to last *)
}.

Definition closeIf (b : bool) (c : chan) (l : list chan) : list chan :=
  if b then c :: l else l.

(** The channels a fake step has closed are closed for everybody. *)
Definition closes (before after : FakeStep) (l : list chan) : list chan :=
  closeIf (negb (closedReady before) && closedReady after) (ready after) l.

(** Modelled from the spec: exec/compose.go is not among the sources.  Run
    of the compose step, up to the point where it waits for its first child:
    "Run child A"; the child is constructed from the A-factory with the
    previous step and the registry, as the test observes, and runs on a
    process of its own. *)
Definition compose_Run (c : compose) (w : world) : world :=
  {| usingA := usingA w ++ [(prev c, repo c)];
     usingB := usingB w;
     stepA := {| fake := callRun (fake (stepA w)) readyOfFirst;
                 start := start (stepA w); finish := finish (stepA w) |};
     stepB := stepB w;
     closedChans := closedChans w;
     step := {| prev := prev c; repo := repo c; firstStep := Some outStepA;
                secondStep := None; signalled := false; progressOf := OnFirst |};
     releaseOrder := releaseOrder w |}.

(** Modelled from the spec: exec/compose.go is not among the sources.  What
    Run does when the first child's Run has returned [e]: "If A fails, B is
    never constructed" and the error is A's; "a step must not start new
    children after it has observed a signal" and "a cancelled step returns
    the Interrupted sentinel"; otherwise "on A's clean Run-return, construct
    child B by calling B-factory.Using(A, registry); run B".  The second
    child runs with the compose step's own signals and ready channels, which
    is what the test observes of [process.Ready()]. *)
Definition compose_firstExited (e : error) (w : world) : world :=
  let c := step w in
  match e with
  | Some _ =>
      {| usingA := usingA w; usingB := usingB w; stepA := stepA w; stepB := stepB w;
         closedChans := closedChans w;
         step := {| prev := prev c; repo := repo c; firstStep := firstStep c;
                    secondStep := secondStep c; signalled := signalled c;
                    progressOf := Done e |};
         releaseOrder := releaseOrder w |}
  | None =>
      if signalled c then
        {| usingA := usingA w; usingB := usingB w; stepA := stepA w; stepB := stepB w;
           closedChans := closedChans w;
           step := {| prev := prev c; repo := repo c; firstStep := firstStep c;
                      secondStep := secondStep c; signalled := signalled c;
                      progressOf := Done (Some ErrInterrupted) |};
           releaseOrder := releaseOrder w |}
      else
        {| usingA := usingA w;
           usingB := usingB w ++ [(outStepA, repo c)];
           stepA := stepA w;
           stepB := {| fake := callRun (fake (stepB w)) readyOfProcess;
                       start := start (stepB w); finish := finish (stepB w) |};
           closedChans := closedChans w;
           step := {| prev := prev c; repo := repo c; firstStep := firstStep c;
                      secondStep := Some outStepB; signalled := signalled c;
                      progressOf := OnSecond |};
           releaseOrder := releaseOrder w |}
  end.

(** Modelled from the spec: exec/compose.go is not among the sources.
    "Terminal status = B's status". *)
Definition compose_secondExited (e : error) (w : world) : world :=
  let c := step w in
  {| usingA := usingA w; usingB := usingB w; stepA := stepA w; stepB := stepB w;
     closedChans := closedChans w;
     step := {| prev := prev c; repo := repo c; firstStep := firstStep c;
                secondStep := secondStep c; signalled := signalled c;
                progressOf := Done e |};
     releaseOrder := releaseOrder w |}.

(** Modelled from the spec: exec/compose.go is not among the sources.  A
    signal that reaches the compose step: "on external signal during A,
    forward to A; do not construct B", "during B, forward signal to B".  A
    process that has exited takes no signal. *)
Definition compose_signal (sig : Signal) (w : world) : world :=
  let c := step w in
  match progressOf c with
  | OnFirst =>
      {| usingA := usingA w; usingB := usingB w;
         stepA := {| fake := recvSignal (fake (stepA w)) sig;
                     start := start (stepA w); finish := finish (stepA w) |};
         stepB := stepB w;
         closedChans := closedChans w;
         step := {| prev := prev c; repo := repo c; firstStep := firstStep c;
                    secondStep := secondStep c; signalled := true;
                    progressOf := progressOf c |};
         releaseOrder := releaseOrder w |}
  | OnSecond =>
      {| usingA := usingA w; usingB := usingB w;
         stepA := stepA w;
         stepB := {| fake := recvSignal (fake (stepB w)) sig;
                     start := start (stepB w); finish := finish (stepB w) |};
         closedChans := closedChans w;
         step := c;
         releaseOrder := releaseOrder w |}
  | Done _ => w
  end.

(** Modelled from the spec: exec/compose.go is not among the sources.
    "Release releases every child that was constructed, in reverse order." *)
Definition compose_Release (w : world) : world :=
  let c := step w in
  let w1 :=
    match secondStep c with
    | Some _ =>
        {| usingA := usingA w; usingB := usingB w; stepA := stepA w;
           stepB := {| fake := callRelease (fake (stepB w));
                       start := start (stepB w); finish := finish (stepB w) |};
           closedChans := closedChans w; step := c;
           releaseOrder := releaseOrder w ++ [outStepB] |}
    | None => w
    end in
  match firstStep c with
  | Some _ =>
      {| usingA := usingA w1; usingB := usingB w1;
         stepA := {| fake := callRelease (fake (stepA w1));
                     start := start (stepA w1); finish := finish (stepA w1) |};
         stepB := stepB w1;
         closedChans := closedChans w1; step := c;
         releaseOrder := releaseOrder w1 ++ [outStepA] |}
  | None => w1
  end.

(** [Result] of a fake step: its [ResultStub] when one is set, and false
    with the slot untouched otherwise. *)
Definition fake_Result (stub : option ResultFn) (x : slot) (v : pointee x) : pointee x * bool :=
  match stub with
  | Some f => f x v
  | None => (v, false)
  end.

(** Modelled from the spec: exec/compose.go is not among the sources.  The
    terminal status is B's, and the test has Result answered by the second
    step; the specification does not say what Result is when no second step
    was constructed, which is [None] here. *)
Definition compose_Result (stubB : option ResultFn) (w : world) (x : slot) (v : pointee x)
  : option (pointee x * bool) :=
  match secondStep (step w) with
  | Some _ => Some (fake_Result stubB x v)
  | None => None
  end.

(** *** The harness *)

Definition settleA (w : world) : world :=
  let s' := settle (stepA w) in
  {| usingA := usingA w; usingB := usingB w; stepA := s'; stepB := stepB w;
     closedChans := closes (fake (stepA w)) (fake s') (closedChans w);
     step := step w; releaseOrder := releaseOrder w |}.

Definition settleB (w : world) : world :=
  let s' := settle (stepB w) in
  {| usingA := usingA w; usingB := usingB w; stepA := stepA w; stepB := s';
     closedChans := closes (fake (stepB w)) (fake s') (closedChans w);
     step := step w; releaseOrder := releaseOrder w |}.

(** The compose step's Run takes its turn when the child it waits for has
    returned. *)
Definition observe (w : world) : world :=
  match progressOf (step w) with
  | OnFirst =>
      match now (fake (stepA w)) with
      | Exited e => compose_firstExited e w
      | _ => w
      end
  | OnSecond =>
      match now (fake (stepB w)) with
      | Exited e => compose_secondExited e w
      | _ => w
      end
  | Done _ => w
  end.

(** Everybody runs until everybody waits again. *)
Definition quiesce (w : world) : world :=
  observe (settleB (observe (settleA w))).

(** What the test does to the running process: a send on one of the four
    channels, or [process.Signal]. *)
Inductive event : Type :=
| SendStartA (e : error)
| SendFinishA (e : error)
| SendStartB (e : error)
| SendFinishB (e : error)
| ProcessSignal (sig : Signal).

Definition withA (w : world) (s : wired) : world :=
  {| usingA := usingA w; usingB := usingB w; stepA := s; stepB := stepB w;
     closedChans := closedChans w; step := step w; releaseOrder := releaseOrder w |}.

Definition withB (w : world) (s : wired) : world :=
  {| usingA := usingA w; usingB := usingB w; stepA := stepA w; stepB := s;
     closedChans := closedChans w; step := step w; releaseOrder := releaseOrder w |}.

(** One event, handled until the system is quiet.  A send on a channel whose
    buffer is full blocks the test for good: [None]. *)
Definition deliver (w : world) (ev : event) : option world :=
  match ev with
  | SendStartA e =>
      match start (stepA w) with
      | None => Some (quiesce (withA w {| fake := fake (stepA w); start := Some e;
                                          finish := finish (stepA w) |}))
      | Some _ => None
      end
  | SendFinishA e =>
      match finish (stepA w) with
      | None => Some (quiesce (withA w {| fake := fake (stepA w); start := start (stepA w);
                                          finish := Some e |}))
      | Some _ => None
      end
  | SendStartB e =>
      match start (stepB w) with
      | None => Some (quiesce (withB w {| fake := fake (stepB w); start := Some e;
                                          finish := finish (stepB w) |}))
      | Some _ => None
      end
  | SendFinishB e =>
      match finish (stepB w) with
      | None => Some (quiesce (withB w {| fake := fake (stepB w); start := start (stepB w);
                                          finish := Some e |}))
      | Some _ => None
      end
  | ProcessSignal sig => Some (quiesce (compose_signal sig w))
  end.

Fixpoint run (w : world) (evs : list event) : option world :=
  match evs with
  | [] => Some w
  | ev :: evs' =>
      match deliver w ev with
      | Some w' => run w' evs'
      | None => None
      end
  end.

Definition theRepo : SourceRepository := repoAt 0.

(** [step = compose.Using(inStep, repo)] and [process = ifrit.Background(step)]. *)
Definition boot : world :=
  quiesce
    (compose_Run
       {| prev := inStep; repo := theRepo; firstStep := None; secondStep := None;
          signalled := false; progressOf := OnFirst |}
       {| usingA := []; usingB := [];
          stepA := {| fake := newFakeStep; start := None; finish := None |};
          stepB := {| fake := newFakeStep; start := None; finish := None |};
          closedChans := [];
          step := {| prev := inStep; repo := theRepo; firstStep := None; secondStep := None;
                     signalled := false; progressOf := OnFirst |};
          releaseOrder := [] |}).

(** [process.Ready()] is closed. *)
Definition processReady (w : world) : bool :=
  bool_decide (readyOfProcess ∈ closedChans w).

(** What [process.Wait()] yields, once Run has returned. *)
Definition processExit (w : world) : option error :=
  match progressOf (step w) with
  | Done e => Some e
  | _ => None
  end.

(** What the assertions of the test read off the process and the fakes: the
    value on [process.Wait()], whether [process.Ready()] is closed,
    [fakeStepFactoryB.UsingCallCount()] and [outStepB.RunCallCount()]. *)
Definition observed (w : world) : option error * bool * nat * nat :=
  (processExit w, processReady w, List.length (usingB w), runCalls (fake (stepB w))).

(** [step.Release()], then the [ReleaseCallCount()] of the two fakes. *)
Definition released (w : world) : nat * nat :=
  let w' := compose_Release w in
  (releaseCalls (fake (stepA w')), releaseCalls (fake (stepB w'))).

End compose_step.

(** ** The configuration validator (package config, validate.go) *)

Module config.
Import exec.

Definition nl : string := String (ascii_of_nat 10) EmptyString.
Definition tab : string := String (ascii_of_nat 9) EmptyString.

(** [fmt]'s [%d] at a slice index. *)
Definition itoa (n : nat) : string := NilEmpty.string_of_uint (Nat.to_uint n).

(** [strings.Join] *)
Definition Join (elems : list string) (sep : string) : string := String.concat sep elems.

(** [strings.Split(msgs, "\n")]: a string without a newline is one line,
    the empty string included. *)
Fixpoint SplitLines (msgs : string) : list string :=
  match msgs with
  | EmptyString => [EmptyString]
  | String c rest =>
      if bool_decide (c = ascii_of_nat 10) then EmptyString :: SplitLines rest
      else
        match SplitLines rest with
        | l :: ls => String c l :: ls
        | [] => [String c EmptyString]
        end
  end.

(** An error made by [errors.New], by its message; [None] is nil. *)
Definition error : Type := option string.

Record InvalidConfigError : Type := mkInvalidConfigError {
  GroupsErr : error;
  ResourcesErr : error;
  JobsErr : error;
  PluginsErr : error
}.

Definition indent (msgs : string) : string :=
  let lines := SplitLines msgs in
  let indented := map (fun l => tab +:+ l) lines in
  Join indented nl.

(** [InvalidConfigError.Error] *)
Definition Error (err : InvalidConfigError) : string :=
  let errorMsgs := ["invalid configuration:"] in
  let errorMsgs :=
    match GroupsErr err with
    | Some m => errorMsgs ++ [indent ("invalid groups:" +:+ nl +:+ indent m +:+ nl)]
    | None => errorMsgs
    end in
  let errorMsgs :=
    match ResourcesErr err with
    | Some m => errorMsgs ++ [indent ("invalid resources:" +:+ nl +:+ indent m +:+ nl)]
    | None => errorMsgs
    end in
  let errorMsgs :=
    match JobsErr err with
    | Some m => errorMsgs ++ [indent ("invalid jobs:" +:+ nl +:+ indent m +:+ nl)]
    | None => errorMsgs
    end in
  Join errorMsgs nl.

Definition compositeErr (errorMessages : list string) : error :=
  match errorMessages with
  | [] => None
  | _ => Some (Join errorMessages nl)
  end.

(** *** The configuration, as far as the validator reads it

    The types are those of package atc, which is not among the sources;
    every field the validator reads is kept, under its name. *)

Inductive TaskConfig : Type := taskConfigAt (addr : nat).

#[local] Unset Elimination Schemes.
Inductive PlanConfig : Type := mkPlanConfig {
  Get : string;
  Put : string;
  Task : string;
  Do : option (list PlanConfig);          (* *PlanSequence *)
  Aggregate : option (list PlanConfig);   (* *PlanSequence *)
  Try : option PlanConfig;
  Ensure : option PlanConfig;
  Success : option PlanConfig;
  Failure : option PlanConfig;
  Conditions : option (list string);
  Resource : string;
  Passed : list string;
  Trigger : bool;
  Privileged : bool;
  Plan_TaskConfig : option TaskConfig;
  Plan_TaskConfigPath : string;
  Params : option (list (string * string));
  Timeout : string
}.

#[local] Set Elimination Schemes.

Definition PlanSequence : Type := list PlanConfig.

Record JobInputConfig : Type := mkJobInputConfig {
  Input_RawName : string;
  Input_Resource : string;
  Input_Passed : list string
}.

Record JobOutputConfig : Type := mkJobOutputConfig {
  Output_Resource : string
}.

Record JobConfig : Type := mkJobConfig {
  Job_Name : string;
  Plan : option PlanSequence;             (* nil or a slice *)
  Job_TaskConfig : option TaskConfig;
  Job_TaskConfigPath : string;
  InputConfigs : list JobInputConfig;
  OutputConfigs : list JobOutputConfig
}.

Record GroupConfig : Type := mkGroupConfig {
  Group_Name : string;
  Group_Jobs : list string;
  Group_Resources : list string
}.

Record ResourceConfig : Type := mkResourceConfig {
  Resource_Name : string;
  Resource_Type : string
}.

Record PluginConfig : Type := mkPluginConfig {
  Plugin_Name : string;
  Plugin_Image : string
}.

Record Config : Type := mkConfig {
  Groups : list GroupConfig;
  Resources : list ResourceConfig;
  Jobs : list JobConfig;
  Plugins : list PluginConfig
}.

(** The methods of package atc that the validator calls. *)
Class Atc : Type := {
  JobConfigs_Lookup : list JobConfig -> string -> option JobConfig;
  ResourceConfigs_Lookup : list ResourceConfig -> string -> option ResourceConfig;
  JobConfig_Inputs : JobConfig -> list string;       (* the Resource of each input *)
  JobConfig_Outputs : JobConfig -> list string;      (* the Resource of each output *)
  PlanConfig_ResourceName : PlanConfig -> string;
  JobInputConfig_Name : JobInputConfig -> string
}.

Definition is_empty (s : string) : bool := bool_decide (s = "").

Section Validate.
Context `{GoTime} `{Atc}.

Definition exists_job (c : Config) (name : string) : bool :=
  match JobConfigs_Lookup (Jobs c) name with Some _ => true | None => false end.

Definition exists_resource (c : Config) (name : string) : bool :=
  match ResourceConfigs_Lookup (Resources c) name with Some _ => true | None => false end.

Definition validateGroups (c : Config) : error :=
  let errorMessages :=
    flat_map (fun group =>
      flat_map (fun job =>
        if exists_job c job then []
        else ["group '" +:+ Group_Name group +:+ "' has unknown job '" +:+ job +:+ "'"])
        (Group_Jobs group) ++
      flat_map (fun resource =>
        if exists_resource c resource then []
        else ["group '" +:+ Group_Name group +:+ "' has unknown resource '" +:+ resource +:+ "'"])
        (Group_Resources group))
      (Groups c) in
  compositeErr errorMessages.

(** The body shared by the loops of [validateResources], [validateJobs] and
    [validatePlugins] over a slice: the name check against the [names] map,
    which maps a name to the index that first had it. *)
Definition sameName (kind : string) (names : gmap string nat) (i : nat) (name : string)
  : gmap string nat * list string :=
  match names !! name with
  | Some other =>
      (names,
       [kind +:+ "[" +:+ itoa other +:+ "] and " +:+ kind +:+ "[" +:+ itoa i +:+
        "] have the same name ('" +:+ name +:+ "')"])
  | None =>
      if is_empty name then (names, []) else (<[name := i]> names, [])
  end.

Definition identifierOf (kind : string) (i : nat) (name : string) : string :=
  if is_empty name then kind +:+ "[" +:+ itoa i +:+ "]"
  else kind +:+ "." +:+ name.

Fixpoint resourcesLoop (names : gmap string nat) (i : nat) (l : list ResourceConfig)
  : list string :=
  match l with
  | [] => []
  | resource :: rest =>
      let identifier := identifierOf "resources" i (Resource_Name resource) in
      let '(names', dup) := sameName "resources" names i (Resource_Name resource) in
      dup ++
      (if is_empty (Resource_Name resource) then [identifier +:+ " has no name"] else []) ++
      (if is_empty (Resource_Type resource) then [identifier +:+ " has no type"] else []) ++
      resourcesLoop names' (S i) rest
  end.

Definition validateResources (c : Config) : error :=
  compositeErr (resourcesLoop ∅ 0 (Resources c)).

Fixpoint pluginsLoop (names : gmap string nat) (i : nat) (l : list PluginConfig)
  : list string :=
  match l with
  | [] => []
  | plugin :: rest =>
      let identifier := identifierOf "plugins" i (Plugin_Name plugin) in
      let '(names', dup) := sameName "plugins" names i (Plugin_Name plugin) in
      dup ++
      (if is_empty (Plugin_Name plugin) then [identifier +:+ " has no name"] else []) ++
      (if is_empty (Plugin_Image plugin) then [identifier +:+ " has no image"] else []) ++
      pluginsLoop names' (S i) rest
  end.

Definition validatePlugins (c : Config) : error :=
  compositeErr (pluginsLoop ∅ 0 (Plugins c)).

(** [doesAnyStepMatch] *)
Fixpoint stepMatches (predicate : PlanConfig -> bool) (planStep : PlanConfig) : bool :=
  let inSequence :=
    fix inSequence (l : list PlanConfig) : bool :=
      match l with
      | [] => false
      | p :: rest => stepMatches predicate p || inSequence rest
      end in
  match Aggregate planStep with
  | Some seq => inSequence seq
  | None => false
  end ||
  match Do planStep with
  | Some seq => inSequence seq
  | None => false
  end ||
  predicate planStep.

Definition doesAnyStepMatch (planSequence : PlanSequence) (predicate : PlanConfig -> bool) : bool :=
  existsb (stepMatches predicate) planSequence.

Definition hasConditionals (planSequence : PlanSequence) : bool :=
  doesAnyStepMatch planSequence (fun step => bool_decide (Conditions step <> None)).

Definition hasHooks (planSequence : PlanSequence) : bool :=
  doesAnyStepMatch planSequence (fun step =>
    bool_decide (Failure step <> None) || bool_decide (Ensure step <> None) ||
    bool_decide (Success step <> None)).

Definition validateConditionals (identifier : string) (planSequence : PlanSequence) : list string :=
  if hasConditionals planSequence && hasHooks planSequence
  then [identifier +:+ " has both conditions and hooks specified"]
  else [].

End Validate.

(** [foundTypes]: the keys of the [found] map, each once. *)
Record foundTypes : Type := mkFoundTypes {
  ft_identifier : string;
  found : list string
}.

Definition Find (ft : foundTypes) (name : string) : foundTypes :=
  {| ft_identifier := ft_identifier ft;
     found := if bool_decide (name ∈ found ft) then found ft else found ft ++ [name] |}.

(** [sort.Strings] *)
Fixpoint insertSorted (x : string) (l : list string) : list string :=
  match l with
  | [] => [x]
  | y :: rest => if String.leb x y then x :: l else y :: insertSorted x rest
  end.

Definition sortStrings (l : list string) : list string := foldr insertSorted [] l.

Definition IsValid (ft : foundTypes) : bool * string :=
  match found ft with
  | [] => (false, ft_identifier ft +:+ " has no action specified")
  | [_] => (true, "")
  | types =>
      (false, ft_identifier ft +:+ " has multiple actions specified (" +:+
              Join (sortStrings types) ", " +:+ ")")
  end.

Definition fieldSet (plan : PlanConfig) (field : string) : bool :=
  if bool_decide (field = "resource") then negb (is_empty (Resource plan))
  else if bool_decide (field = "passed") then negb (bool_decide (Passed plan = []))
  else if bool_decide (field = "trigger") then Trigger plan
  else if bool_decide (field = "privileged") then Privileged plan
  else if bool_decide (field = "config") then bool_decide (Plan_TaskConfig plan <> None)
  else if bool_decide (field = "file") then negb (is_empty (Plan_TaskConfigPath plan))
  else false.

Definition validateInapplicableFields
    (inapplicableFields : list string) (plan : PlanConfig) (identifier : string) : list string :=
  let foundInapplicableFields := filter (fun field => fieldSet plan field = true) inapplicableFields in
  match foundInapplicableFields with
  | [] => []
  | _ => [identifier +:+ " has invalid fields specified (" +:+
          Join foundInapplicableFields ", " +:+ ")"]
  end.

Section ValidatePlan.
Context `{GoTime} `{Atc}.

Definition resourceCheck (c : Config) (subIdentifier : string) (plan : PlanConfig) (name : string)
  : list string :=
  if negb (is_empty (Resource plan)) then
    if exists_resource c (Resource plan) then []
    else [subIdentifier +:+ " refers to a resource that does not exist ('" +:+
          Resource plan +:+ "')"]
  else
    if exists_resource c name then []
    else [subIdentifier +:+ " refers to a resource that does not exist"].

Definition passedCheck (c : Config) (subIdentifier : string) (plan : PlanConfig) : list string :=
  flat_map (fun job =>
    match JobConfigs_Lookup (Jobs c) job with
    | None => [subIdentifier +:+ ".passed references an unknown job ('" +:+ job +:+ "')"]
    | Some jobConfig =>
        let foundResource :=
          existsb (fun r => bool_decide (r = PlanConfig_ResourceName plan)) (JobConfig_Inputs jobConfig) ||
          existsb (fun r => bool_decide (r = PlanConfig_ResourceName plan)) (JobConfig_Outputs jobConfig) in
        if foundResource then []
        else [subIdentifier +:+ ".passed references a job ('" +:+ job +:+
              "') which doesn't interact with the resource ('" +:+ Get plan +:+ "')"]
    end) (Passed plan).

Fixpoint validatePlan (c : Config) (identifier : string) (plan : PlanConfig) {struct plan}
  : list string :=
  let foundTypes := {| ft_identifier := identifier; found := [] |} in
  let foundTypes := if negb (is_empty (Get plan)) then Find foundTypes "get" else foundTypes in
  let foundTypes := if negb (is_empty (Put plan)) then Find foundTypes "put" else foundTypes in
  let foundTypes := if negb (is_empty (Task plan)) then Find foundTypes "task" else foundTypes in
  let foundTypes := if bool_decide (Do plan <> None) then Find foundTypes "do" else foundTypes in
  let foundTypes :=
    if bool_decide (Aggregate plan <> None) then Find foundTypes "aggregate" else foundTypes in
  let foundTypes := if bool_decide (Try plan <> None) then Find foundTypes "try" else foundTypes in
  let '(valid, message) := IsValid foundTypes in
  if negb valid then [message]
  else
    let each (infix : string) :=
      fix each (i : nat) (l : list PlanConfig) : list string :=
        match l with
        | [] => []
        | p :: rest =>
            validatePlan c (identifier +:+ infix +:+ "[" +:+ itoa i +:+ "]") p ++ each (S i) rest
        end in
    let errorMessages :=
      match Do plan, Aggregate plan, Try plan with
      | Some seq, _, _ => each "" 0%nat seq
      | None, Some seq, _ => each ".aggregate" 0%nat seq
      | None, None, try =>
          if negb (is_empty (Get plan)) then
            let subIdentifier := identifier +:+ ".get." +:+ Get plan in
            validateInapplicableFields ["privileged"; "config"; "file"] plan subIdentifier ++
            resourceCheck c subIdentifier plan (Get plan) ++
            passedCheck c subIdentifier plan
          else if negb (is_empty (Put plan)) then
            let subIdentifier := identifier +:+ ".put." +:+ Put plan in
            validateInapplicableFields ["passed"; "trigger"; "privileged"; "config"; "file"]
              plan subIdentifier ++
            resourceCheck c subIdentifier plan (Put plan)
          else if negb (is_empty (Task plan)) then
            let subIdentifier := identifier +:+ ".task." +:+ Task plan in
            (if bool_decide (Plan_TaskConfig plan = None) && is_empty (Plan_TaskConfigPath plan)
             then [subIdentifier +:+ " does not specify any task configuration"] else []) ++
            validateInapplicableFields ["resource"; "passed"; "trigger"] plan subIdentifier ++
            (if bool_decide (Params plan <> None)
             then [subIdentifier +:+ " specifies params, which should be config.params"] else [])
          else
            match try with
            | Some p => validatePlan c (identifier +:+ ".try") p
            | None => []
            end
      end in
    let errorMessages :=
      errorMessages ++
      match Ensure plan with
      | Some p => validatePlan c (identifier +:+ ".ensure") p
      | None => []
      end in
    let errorMessages :=
      errorMessages ++
      match Success plan with
      | Some p => validatePlan c (identifier +:+ ".success") p
      | None => []
      end in
    let errorMessages :=
      errorMessages ++
      match Failure plan with
      | Some p => validatePlan c (identifier +:+ ".failure") p
      | None => []
      end in
    errorMessages ++
    (if negb (is_empty (Timeout plan)) then
       match ParseDuration (Timeout plan) with
       | inr _ => [identifier +:+ ".timeout" +:+
                   " refers to a duration that could not be parsed ('" +:+ Timeout plan +:+ "')"]
       | inl _ => []
       end
     else []).

Definition inputIdentifierOf (identifier : string) (i : nat) (input : JobInputConfig) : string :=
  if is_empty (JobInputConfig_Name input)
  then identifier +:+ ".inputs[" +:+ itoa i +:+ "]"
  else identifier +:+ ".inputs." +:+ JobInputConfig_Name input.

Fixpoint inputsLoop (c : Config) (identifier : string) (i : nat) (l : list JobInputConfig)
  : list string :=
  match l with
  | [] => []
  | input :: rest =>
      let inputIdentifier := inputIdentifierOf identifier i input in
      (if is_empty (Input_Resource input) then [inputIdentifier +:+ " has no resource"]
       else if exists_resource c (Input_Resource input) then []
       else [inputIdentifier +:+ " has an unknown resource ('" +:+ Input_Resource input +:+ "')"]) ++
      flat_map (fun job =>
        if exists_job c job then []
        else [inputIdentifier +:+ ".passed references an unknown job ('" +:+ job +:+ "')"])
        (Input_Passed input) ++
      inputsLoop c identifier (S i) rest
  end.

Fixpoint outputsLoop (c : Config) (identifier : string) (i : nat) (l : list JobOutputConfig)
  : list string :=
  match l with
  | [] => []
  | output :: rest =>
      let outputIdentifier := identifier +:+ ".outputs[" +:+ itoa i +:+ "]" in
      (if is_empty (Output_Resource output) then [outputIdentifier +:+ " has no resource"]
       else if exists_resource c (Output_Resource output) then []
       else [outputIdentifier +:+ " has an unknown resource ('" +:+ Output_Resource output +:+ "')"]) ++
      outputsLoop c identifier (S i) rest
  end.

Definition validateInputOutputConfig (c : Config) (job : JobConfig) (identifier : string)
  : list string :=
  inputsLoop c identifier 0 (InputConfigs job) ++ outputsLoop c identifier 0 (OutputConfigs job).

Definition sliceOf (plan : option PlanSequence) : PlanSequence :=
  match plan with Some seq => seq | None => [] end.

Fixpoint jobsLoop (c : Config) (names : gmap string nat) (i : nat) (l : list JobConfig)
  : list string :=
  match l with
  | [] => []
  | job :: rest =>
      let identifier := identifierOf "jobs" i (Job_Name job) in
      let '(names', dup) := sameName "jobs" names i (Job_Name job) in
      dup ++
      (if is_empty (Job_Name job) then [identifier +:+ " has no name"] else []) ++
      (if bool_decide (Plan job <> None) &&
          (bool_decide (Job_TaskConfig job <> None) ||
           negb (is_empty (Job_TaskConfigPath job)) ||
           negb (bool_decide (InputConfigs job = [])) ||
           negb (bool_decide (OutputConfigs job = [])))
       then [identifier +:+ " has both a plan and inputs/outputs/build config specified"]
       else []) ++
      validateConditionals (identifier +:+ ".plan") (sliceOf (Plan job)) ++
      validatePlan c (identifier +:+ ".plan")
        {| Get := ""; Put := ""; Task := ""; Do := Some (sliceOf (Plan job)); Aggregate := None;
           Try := None; Ensure := None; Success := None; Failure := None; Conditions := None;
           Resource := ""; Passed := []; Trigger := false; Privileged := false;
           Plan_TaskConfig := None; Plan_TaskConfigPath := ""; Params := None; Timeout := "" |} ++
      validateInputOutputConfig c job identifier ++
      jobsLoop c names' (S i) rest
  end.

Definition validateJobs (c : Config) : error :=
  compositeErr (jobsLoop c ∅ 0 (Jobs c)).

Definition ValidateConfig (c : Config) : option InvalidConfigError :=
  let groupsErr := validateGroups c in
  let resourcesErr := validateResources c in
  let jobsErr := validateJobs c in
  let pluginsErr := validatePlugins c in
  match groupsErr, resourcesErr, jobsErr, pluginsErr with
  | None, None, None, None => None
  | _, _, _, _ =>
      Some {| GroupsErr := groupsErr; ResourcesErr := resourcesErr;
              JobsErr := jobsErr; PluginsErr := pluginsErr |}
  end.

End ValidatePlan.

End config.

(** ** Notions used to state what the validator does *)

Module config_facts.
Import config.

(** A string without a newline. *)
Fixpoint oneLine (s : string) : bool :=
  match s with
  | EmptyString => true
  | String c rest => negb (bool_decide (c = ascii_of_nat 10)) && oneLine rest
  end.

(** How many of the six actions a plan node names. *)
Definition actionCount (plan : PlanConfig) : nat :=
  ((if is_empty (Get plan) then 0 else 1) +
   (if is_empty (Put plan) then 0 else 1) +
   (if is_empty (Task plan) then 0 else 1) +
   (if bool_decide (Do plan <> None) then 1 else 0) +
   (if bool_decide (Aggregate plan <> None) then 1 else 0) +
   (if bool_decide (Try plan <> None) then 1 else 0))%nat.

(** The message of the name check for the entries at [other] and [i]. *)
Definition sameNameMessage (kind : string) (other i : nat) (name : string) : string :=
  kind +:+ "[" +:+ itoa other +:+ "] and " +:+ kind +:+ "[" +:+ itoa i +:+
  "] have the same name ('" +:+ name +:+ "')".

(** The [foundTypes] that [validatePlan] has built when it calls [IsValid]. *)
Definition foundOf (identifier : string) (plan : PlanConfig) : foundTypes :=
  let foundTypes := {| ft_identifier := identifier; found := [] |} in
  let foundTypes := if negb (is_empty (Get plan)) then Find foundTypes "get" else foundTypes in
  let foundTypes := if negb (is_empty (Put plan)) then Find foundTypes "put" else foundTypes in
  let foundTypes := if negb (is_empty (Task plan)) then Find foundTypes "task" else foundTypes in
  let foundTypes := if bool_decide (Do plan <> None) then Find foundTypes "do" else foundTypes in
  let foundTypes :=
    if bool_decide (Aggregate plan <> None) then Find foundTypes "aggregate" else foundTypes in
  if bool_decide (Try plan <> None) then Find foundTypes "try" else foundTypes.

Section PlanFacts.
Context `{exec.GoTime} `{Atc}.

(** The loop of [validatePlan] over the steps of a do or of an aggregate. *)
Definition eachPlan (c : Config) (identifier infix : string)
  : nat -> list PlanConfig -> list string :=
  fix each (i : nat) (l : list PlanConfig) : list string :=
    match l with
    | [] => []
    | p :: rest =>
        validatePlan c (identifier +:+ infix +:+ "[" +:+ itoa i +:+ "]") p ++ each (S i) rest
    end.

End PlanFacts.

(** The plan that [validateJobs] hands to [validatePlan] for a job:
    [atc.PlanConfig{Do: &job.Plan}]. *)
Definition planOf (job : JobConfig) : PlanConfig :=
  {| Get := ""; Put := ""; Task := ""; Do := Some (sliceOf (Plan job)); Aggregate := None;
     Try := None; Ensure := None; Success := None; Failure := None; Conditions := None;
     Resource := ""; Passed := []; Trigger := false; Privileged := false;
     Plan_TaskConfig := None; Plan_TaskConfigPath := ""; Params := None; Timeout := "" |}.

(** [child plan p]: [p] is a step of the do or of the aggregate of [plan],
    its try, or one of its three hooks. *)
Inductive child (plan p : PlanConfig) : Prop :=
| child_do seq : Do plan = Some seq -> p ∈ seq -> child plan p
| child_aggregate seq : Aggregate plan = Some seq -> p ∈ seq -> child plan p
| child_try : Try plan = Some p -> child plan p
| child_ensure : Ensure plan = Some p -> child plan p
| child_success : Success plan = Some p -> child plan p
| child_failure : Failure plan = Some p -> child plan p.

(** [within plan q]: [q] is [plan] or lies below it. *)
Inductive within : PlanConfig -> PlanConfig -> Prop :=
| within_here plan : within plan plan
| within_child plan p q : child plan p -> within p q -> within plan q.

(** [nested step q]: [q] is [step] or is reached from it through steps of
    do and aggregate sequences only. *)
Inductive nested : PlanConfig -> PlanConfig -> Prop :=
| nested_here step : nested step step
| nested_do step seq p q : Do step = Some seq -> p ∈ seq -> nested p q -> nested step q
| nested_aggregate step seq p q :
    Aggregate step = Some seq -> p ∈ seq -> nested p q -> nested step q.

End config_facts.

(** ** Steps and schedules used as concrete inputs *)

Module fixtures.
Import exec timeout_step.

(** What the tests' helper [successResult] stubs: a step that answers a
    [*Success] with [b] and nothing else. *)
Definition successResult (b : Success) : ResultFn :=
  fun x =>
    match x with
    | SuccessPtr => fun _ => (b, true)
    | ExitStatusPtr => fun v => (v, false)
    | VersionInfoPtr => fun v => (v, false)
    end.

(** A step that populates every slot it is handed. *)
Definition populatesAll : ResultFn :=
  fun x =>
    match x with
    | SuccessPtr => fun _ => (true, true)
    | ExitStatusPtr => fun _ => (7, true)
    | VersionInfoPtr => fun _ => (mkVersionInfo [("ref", "abc")] [], true)
    end.

Definition inStep : Step := mkStep "inStep" (successResult true).
Definition task : Step := mkStep "task" populatesAll.
Definition taskFactory : StepFactory := mkStepFactory (fun _ _ => task).
Definition repo : SourceRepository := repoAt 0.

Definition timeoutOf (d : string) : timeout :=
  Using (Timeout taskFactory d) inStep repo.

(** An implementation of the methods of package atc, to run the validator
    on concrete configurations: lookups go by name, the inputs and outputs
    of a job are the configured ones. *)
#[export] Instance atc_by_name : config.Atc := {|
  config.JobConfigs_Lookup jobs name :=
    find (fun j => bool_decide (config.Job_Name j = name)) jobs;
  config.ResourceConfigs_Lookup resources name :=
    find (fun r => bool_decide (config.Resource_Name r = name)) resources;
  config.JobConfig_Inputs job := map config.Input_Resource (config.InputConfigs job);
  config.JobConfig_Outputs job := map config.Output_Resource (config.OutputConfigs job);
  config.PlanConfig_ResourceName plan :=
    if config.is_empty (config.Resource plan)
    then (if config.is_empty (config.Get plan) then config.Put plan else config.Get plan)
    else config.Resource plan;
  config.JobInputConfig_Name input :=
    if config.is_empty (config.Input_RawName input)
    then config.Input_Resource input else config.Input_RawName input
|}.

(** A configuration whose only fault is a plugin without name and image. *)
Definition namelessPlugin : config.Config :=
  {| config.Groups := []; config.Resources := []; config.Jobs := [];
     config.Plugins := [config.mkPluginConfig "" ""] |}.

(** A plan node with nothing set. *)
Definition noPlan : config.PlanConfig :=
  {| config.Get := ""; config.Put := ""; config.Task := ""; config.Do := None;
     config.Aggregate := None; config.Try := None; config.Ensure := None;
     config.Success := None; config.Failure := None; config.Conditions := None;
     config.Resource := ""; config.Passed := []; config.Trigger := false;
     config.Privileged := false; config.Plan_TaskConfig := None;
     config.Plan_TaskConfigPath := ""; config.Params := None; config.Timeout := "" |}.

(** get: repo, passed: [build], trigger: true, timeout: 10m *)
Definition getRepo : config.PlanConfig :=
  {| config.Get := "repo"; config.Put := ""; config.Task := ""; config.Do := None;
     config.Aggregate := None; config.Try := None; config.Ensure := None;
     config.Success := None; config.Failure := None; config.Conditions := None;
     config.Resource := ""; config.Passed := ["build"]; config.Trigger := true;
     config.Privileged := false; config.Plan_TaskConfig := None;
     config.Plan_TaskConfigPath := ""; config.Params := None; config.Timeout := "10m" |}.

(** put: image, resource: registry *)
Definition putImage : config.PlanConfig :=
  {| config.Get := ""; config.Put := "image"; config.Task := ""; config.Do := None;
     config.Aggregate := None; config.Try := None; config.Ensure := None;
     config.Success := None; config.Failure := None; config.Conditions := None;
     config.Resource := "registry"; config.Passed := []; config.Trigger := false;
     config.Privileged := false; config.Plan_TaskConfig := None;
     config.Plan_TaskConfigPath := ""; config.Params := None; config.Timeout := "" |}.

(** task: unit, file: ci/unit.yml, privileged: true, timeout: 1h *)
Definition unitTask : config.PlanConfig :=
  {| config.Get := ""; config.Put := ""; config.Task := "unit"; config.Do := None;
     config.Aggregate := None; config.Try := None; config.Ensure := None;
     config.Success := None; config.Failure := None; config.Conditions := None;
     config.Resource := ""; config.Passed := []; config.Trigger := false;
     config.Privileged := true; config.Plan_TaskConfig := None;
     config.Plan_TaskConfigPath := "ci/unit.yml"; config.Params := None;
     config.Timeout := "1h" |}.

(** try: the unit task, ensure: the put *)
Definition tryUnit : config.PlanConfig :=
  {| config.Get := ""; config.Put := ""; config.Task := ""; config.Do := None;
     config.Aggregate := None; config.Try := Some unitTask; config.Ensure := Some putImage;
     config.Success := None; config.Failure := None; config.Conditions := None;
     config.Resource := ""; config.Passed := []; config.Trigger := false;
     config.Privileged := false; config.Plan_TaskConfig := None;
     config.Plan_TaskConfigPath := ""; config.Params := None; config.Timeout := "" |}.

(** The plan of the job test, as validateJobs hands it to validatePlan. *)
Definition testPlan : config.PlanConfig :=
  {| config.Get := ""; config.Put := ""; config.Task := "";
     config.Do := Some [getRepo; tryUnit];
     config.Aggregate := None; config.Try := None; config.Ensure := None;
     config.Success := None; config.Failure := None; config.Conditions := None;
     config.Resource := ""; config.Passed := []; config.Trigger := false;
     config.Privileged := false; config.Plan_TaskConfig := None;
     config.Plan_TaskConfigPath := ""; config.Params := None; config.Timeout := "" |}.

(** A node that names two actions, and below it a timeout that does not
    parse. *)
Definition getAndPut : config.PlanConfig :=
  {| config.Get := "repo"; config.Put := "image"; config.Task := ""; config.Do := None;
     config.Aggregate := None; config.Try := None; config.Ensure := Some noPlan;
     config.Success := None; config.Failure := None; config.Conditions := None;
     config.Resource := ""; config.Passed := []; config.Trigger := false;
     config.Privileged := false; config.Plan_TaskConfig := None;
     config.Plan_TaskConfigPath := ""; config.Params := None; config.Timeout := "bogus" |}.

(** A pipeline that validates: the job build in the configuration with
    inputs and outputs, the job test with a plan. *)
Definition pipeline : config.Config :=
  {| config.Groups := [config.mkGroupConfig "all" ["build"; "test"] ["repo"; "registry"]];
     config.Resources := [config.mkResourceConfig "repo" "git";
                          config.mkResourceConfig "registry" "docker-image"];
     config.Jobs :=
       [config.mkJobConfig "build" None None "build.yml"
          [config.mkJobInputConfig "" "repo" []] [config.mkJobOutputConfig "registry"];
        config.mkJobConfig "test" (Some [getRepo; tryUnit]) None "" [] []];
     config.Plugins := [config.mkPluginConfig "slack" "slack-notifier";
                        config.mkPluginConfig "irc" "irc-notifier"] |}.

(** Three plugins, the third with the name of the first. *)
Definition twoSlacks : config.Config :=
  {| config.Groups := []; config.Resources := []; config.Jobs := [];
     config.Plugins := [config.mkPluginConfig "slack" "slack-notifier";
                        config.mkPluginConfig "irc" "irc-notifier";
                        config.mkPluginConfig "slack" "other-notifier"] |}.

End fixtures.

(** ** What a schedule says about the race between timer and child *)

Module race.
Import exec timeout_step.

Definition is_wait (r : received) : bool :=
  match r with FromWait _ => true | _ => false end.

Definition is_timer (r : received) : bool :=
  match r with FromTimer => true | _ => false end.

(** The first thing the loop receives that is not a signal: the timer's
    tick when the timer fires before the child's Run returns, the child's
    exit when the child's Run returns before the timer fires. *)
Fixpoint first_decisive (sel : list received) : option received :=
  match sel with
  | [] => None
  | FromSignals _ :: sel' => first_decisive sel'
  | r :: _ => Some r
  end.

(** The signals received before that. *)
Fixpoint signals_before (sel : list received) : list Signal :=
  match sel with
  | FromSignals sig :: sel' => sig :: signals_before sel'
  | _ => []
  end.

(** The error the child's Run returns, when it returns at all. *)
Fixpoint child_exit (sel : list received) : option error :=
  match sel with
  | [] => None
  | FromWait e :: _ => Some e
  | _ :: sel' => child_exit sel'
  end.

(** The turns the loop takes before the child's Run has returned. *)
Fixpoint before_exit (sel : list received) : list received :=
  match sel with
  | [] => []
  | FromWait _ :: _ => []
  | r :: sel' => r :: before_exit sel'
  end.

(** What the loop sends to the child on such a turn. *)
Definition forwarded (r : received) : effect :=
  match r with
  | FromSignals sig => SignalChild sig
  | _ => SignalChild Kill
  end.

(** Whether the timer has ticked before the child's Run returned. *)
Definition ticked (sel : list received) : bool := existsb is_timer (before_exit sel).

End race.

(** ** What holds of the harness in every state it can reach *)

Module compose_invariant.
Import exec compose_step.

(** A fake step that waits has nothing waiting for it, and it has closed
    its ready channel exactly when it is past the first select. *)
Definition quiet (s : wired) : Prop :=
  match now (fake s) with
  | Idle => closedReady (fake s) = false
  | Starting => start s = None /\ closedReady (fake s) = false
  | Running => finish s = None /\ closedReady (fake s) = true
  | Exited _ => True
  end.

Record inv (w : world) : Prop := mkInv {
  inv_usingA : usingA w = [(inStep, theRepo)];
  inv_first : firstStep (step w) = Some outStepA;
  inv_repo : repo (step w) = theRepo;
  inv_A : runCalls (fake (stepA w)) = 1%nat /\ ready (fake (stepA w)) = readyOfFirst /\
          releaseCalls (fake (stepA w)) = 0%nat;
  inv_quietA : quiet (stepA w);
  inv_quietB : quiet (stepB w);
  inv_release : releaseOrder w = [];
  inv_closed : forall c, c ∈ closedChans w <->
                 (c = readyOfFirst /\ closedReady (fake (stepA w)) = true) \/
                 (c = readyOfProcess /\ closedReady (fake (stepB w)) = true);
  inv_progress :
    match progressOf (step w) with
    | OnFirst =>
        (now (fake (stepA w)) = Starting \/ now (fake (stepA w)) = Running) /\
        received (fake (stepA w)) = [] /\ signalled (step w) = false /\
        fake (stepB w) = newFakeStep /\ usingB w = [] /\ secondStep (step w) = None
    | OnSecond =>
        now (fake (stepA w)) = Exited None /\
        received (fake (stepA w)) = [] /\ signalled (step w) = false /\
        usingB w = [(outStepA, theRepo)] /\ secondStep (step w) = Some outStepB /\
        (now (fake (stepB w)) = Starting \/ now (fake (stepB w)) = Running) /\
        received (fake (stepB w)) = [] /\
        runCalls (fake (stepB w)) = 1%nat /\ ready (fake (stepB w)) = readyOfProcess /\
        releaseCalls (fake (stepB w)) = 0%nat
    | Done e =>
        (exists e', now (fake (stepA w)) = Exited (Some e') /\ e = Some e' /\
           fake (stepB w) = newFakeStep /\ usingB w = [] /\ secondStep (step w) = None) \/
        (now (fake (stepA w)) = Exited None /\
         received (fake (stepA w)) = [] /\ signalled (step w) = false /\
         usingB w = [(outStepA, theRepo)] /\ secondStep (step w) = Some outStepB /\
         now (fake (stepB w)) = Exited e /\
         runCalls (fake (stepB w)) = 1%nat /\ ready (fake (stepB w)) = readyOfProcess /\
         releaseCalls (fake (stepB w)) = 0%nat)
    end
}.

(** What the test can see of a world once Run has returned. *)
Record outcome : Type := mkOutcome {
  o_step : compose;
  o_A : FakeStep;
  o_B : FakeStep;
  o_usingB : UsingArgs;
  o_closed : list chan
}.


End compose_invariant.

(** * Properties *)

(** ** The timeout step *)

Section TimeoutFacts.
Import exec timeout_step race.

Lemma dance_exited st sel :
  exited st = false -> exited (dance st sel) = existsb is_wait sel.
Proof.
  revert st. induction sel as [|r sel IH]; intros st Hst; [done|].
  destruct r; simpl; [done | by apply IH | by apply IH].
Qed.

Lemma dance_done_grows st sel :
  exists more, done (dance st sel) = done st ++ more.
Proof.
  revert st. induction sel as [|r sel IH]; intros st.
  - exists []. by rewrite app_nil_r.
  - destruct r; simpl.
    + exists []. by rewrite app_nil_r.
    + edestruct IH as [more ->]. simpl. rewrite <- app_assoc. by eexists.
    + edestruct IH as [more ->]. simpl. rewrite <- app_assoc. by eexists.
Qed.

(** Once the timer has fired the loop remembers it for as long as it turns. *)
Lemma dance_fired_sticky st sel :
  ts_timedOut st = true -> timeoutErr st = Some ErrStepTimedOut ->
  ts_timedOut (dance st sel) = true /\
  timeoutErr (dance st sel) = Some ErrStepTimedOut.
Proof.
  revert st. induction sel as [|r sel IH]; intros st Ht He; [done|].
  destruct r; simpl; [done | by apply IH | by apply IH].
Qed.

(** The child's Run returns first: the loop has only forwarded signals. *)
Lemma dance_first_wait st sel e :
  first_decisive sel = Some (FromWait e) ->
  dance st sel =
    {| ts_timedOut := ts_timedOut st; runErr := e; timeoutErr := timeoutErr st;
       done := done st ++ map SignalChild (signals_before sel); exited := true |}.
Proof.
  revert st. induction sel as [|r sel IH]; intros st Hfirst; [done|].
  destruct r; simpl in *.
  - injection Hfirst as ->. by rewrite app_nil_r.
  - done.
  - rewrite IH by done. simpl. by rewrite <- app_assoc.
Qed.

(** The timer fires first: the child is killed and the time-out recorded. *)
Lemma dance_first_timer st sel :
  first_decisive sel = Some FromTimer ->
  ts_timedOut (dance st sel) = true /\
  timeoutErr (dance st sel) = Some ErrStepTimedOut /\
  In (SignalChild Kill) (done (dance st sel)).
Proof.
  revert st. induction sel as [|r sel IH]; intros st Hfirst; [done|].
  destruct r; simpl in *; [done | | by apply IH].
  set (st' := mkLoop _ _ _ _ _).
  destruct (dance_fired_sticky st' sel) as [Ht He]; [done..|].
  destruct (dance_done_grows st' sel) as [more Hd].
  repeat split; [done..|].
  rewrite Hd. subst st'. simpl. rewrite !in_app_iff. left. right. by left.
Qed.

Lemma dance_no_decisive sel :
  first_decisive sel = None -> existsb is_wait sel = false.
Proof.
  induction sel as [|r sel IH]; [done|]. destruct r; simpl; try done.
Qed.

End TimeoutFacts.

Section TimeoutClaims.
Import exec timeout_step race.
Context `{GoTime}.

Lemma Run_keeps_runStep ts sch : runStep (Run ts sch).1.1 = runStep ts.
Proof.
  unfold Run. destruct (runStep ts) eqn:Hchild; [|done].
  destruct (childReadyOrExited sch); simpl; [|done].
  destruct (ParseDuration (duration ts)); [|done].
  destruct (exited _); simpl; [|done].
  destruct (timeoutErr _); [done|]. by destruct (runErr _).
Qed.

(** C1, as the code has it.  The claim reads: when the duration does not
    parse, Run returns the parse error at once and the child's Run is never
    started.  In the code [ifrit.Invoke] comes first and the duration is
    parsed after it: for every duration that fails to parse the child's Run
    has been started when the parse error is returned, and Run returns
    nothing for as long as the child has neither become ready nor exited. *)
Theorem timeout_Run_parse_error_after_invoke ts child sch e :
  runStep ts = Some child ->
  ParseDuration (duration ts) = inr e ->
  In Invoke (Run ts sch).1.2 /\
  Run ts sch =
    if childReadyOrExited sch
    then (ts, [Invoke; CloseReady], Returned (Some e))
    else (ts, [Invoke], Blocked).
Proof.
  intros Hchild Hparse. unfold Run. rewrite Hchild, Hparse.
  destruct (childReadyOrExited sch); simpl; auto.
Qed.

(** C4, amended.  With a duration that parses: when the timer fires before
    the child's Run returns, the child is sent a kill, Run returns nothing
    until the child's Run has returned, and it then returns StepTimedOut
    whatever error the child returned; when the child's Run returns before
    the timer fires, Run returns the child's error (nil on clean
    completion), has sent the child nothing but the signals it received, and
    leaves the timedOut flag as it was, so that the result is StepTimedOut
    only when that is the error the child itself returned. *)
Theorem timeout_Run_timer_against_child ts child d sch :
  runStep ts = Some child ->
  ParseDuration (duration ts) = inl d ->
  childReadyOrExited sch = true ->
  let '(ts', eff, out) := Run ts sch in
  match first_decisive (selects sch) with
  | Some FromTimer =>
      In (SignalChild Kill) eff /\
      timedOut ts' = true /\
      out = match child_exit (selects sch) with
            | Some _ => Returned (Some ErrStepTimedOut)
            | None => Blocked
            end
  | Some (FromWait e) =>
      out = Returned e /\
      timedOut ts' = timedOut ts /\
      eff = [Invoke; CloseReady; NewTimer d] ++ map SignalChild (signals_before (selects sch)) /\
      (out = Returned (Some ErrStepTimedOut) <-> e = Some ErrStepTimedOut)
  | _ => out = Blocked
  end.
Proof.
  intros Hchild Hparse Hready. unfold Run. rewrite Hchild, Hparse, Hready. simpl.
  set (st0 := mkLoop _ _ _ _ _).
  assert (Hexit : forall sel, existsb is_wait sel = match child_exit sel with Some _ => true | None => false end).
  { induction sel as [|r sel IH]; [done|]. by destruct r. }
  destruct (first_decisive (selects sch)) as [[e| |sig]|] eqn:Hfirst.
  - rewrite (dance_first_wait st0 _ e Hfirst). simpl.
    destruct e as [e|]; simpl; repeat split; try done; congruence.
  - destruct (dance_first_timer st0 _ Hfirst) as (Ht & He & Hk).
    rewrite (dance_exited st0) by done. rewrite Hexit.
    destruct (child_exit (selects sch)); simpl.
    + rewrite He. simpl. by rewrite Ht.
    + by rewrite Ht.
  - rewrite (dance_exited st0) by done.
    exfalso. clear -Hfirst. induction (selects sch) as [|r sel IH]; [done|].
    destruct r; simpl in *; auto; done.
  - rewrite (dance_exited st0) by done.
    by rewrite (dance_no_decisive _ Hfirst).
Qed.

(** C5.  Once Run has returned, Result on a [*Success] populates the slot
    with the child's Success and the negation of timedOut, and says so. *)
Theorem timeout_Result_success ts sch ts' eff e (v : Success) :
  Run ts sch = (ts', eff, Returned e) ->
  exists child,
    runStep ts' = Some child /\
    Result ts' SuccessPtr v =
      Some ((stepResult child SuccessPtr false).1 && negb (timedOut ts'), true).
Proof.
  intros Hrun.
  pose proof (Run_keeps_runStep ts sch) as Hsame. rewrite Hrun in Hsame. simpl in Hsame.
  destruct (runStep ts) as [child|] eqn:Hchild.
  - exists child. split; [done|]. simpl. by rewrite Hsame.
  - unfold Run in Hrun. by rewrite Hchild in Hrun.
Qed.

(** C9.  For a slot of any other type than [*Success], Result returns false
    and leaves the slot as it was, whatever the child would have put there. *)
Theorem timeout_Result_other_slot ts (x : slot) (v : pointee x) :
  x <> SuccessPtr -> Result ts x v = Some (v, false).
Proof. by destruct x. Qed.

End TimeoutClaims.

Section TimeoutInstances.
Import exec timeout_step race fixtures gotime.

Lemma timeout_Run_parse_error_after_invoke_witness :
  let sch := mkSchedule true [] in
  In Invoke (Run (timeoutOf "bogus") sch).1.2 /\
  Run (timeoutOf "bogus") sch =
    (timeoutOf "bogus", [Invoke; CloseReady],
     Returned (Some (ErrMsg "time: invalid duration bogus"))).
Proof.
  exact (timeout_Run_parse_error_after_invoke
           (timeoutOf "bogus") task (mkSchedule true []) _ eq_refl eq_refl).
Defined.

(** C4, as stated, fails where the child's own error is StepTimedOut: the
    child's Run returns before any tick of the timer, and Run returns
    StepTimedOut all the same. *)
Lemma timeout_Run_child_first_returns_StepTimedOut :
  let sch := mkSchedule true [FromWait (Some ErrStepTimedOut)] in
  existsb is_timer (selects sch) = false /\
  first_decisive (selects sch) = Some (FromWait (Some ErrStepTimedOut)) /\
  ParseDuration "1h" = inl 3600000000000 /\
  (Run (timeoutOf "1h") sch).2 = Returned (Some ErrStepTimedOut).
Proof. repeat split. Qed.

Lemma timeout_Run_timer_against_child_witness :
  let sch := mkSchedule true
               [FromSignals Interrupt; FromTimer; FromWait (Some ErrInterrupted)] in
  let '(ts', eff, out) := Run (timeoutOf "50ms") sch in
  In (SignalChild Kill) eff /\
  timedOut ts' = true /\
  out = Returned (Some ErrStepTimedOut).
Proof.
  exact (timeout_Run_timer_against_child
           (timeoutOf "50ms") task 50000000
           (mkSchedule true [FromSignals Interrupt; FromTimer; FromWait (Some ErrInterrupted)])
           eq_refl eq_refl eq_refl).
Defined.

Lemma timeout_Result_success_witness :
  let sch := mkSchedule true [FromTimer; FromWait (Some ErrInterrupted)] in
  exists child,
    runStep (set_timedOut (timeoutOf "50ms") true) = Some child /\
    Result (set_timedOut (timeoutOf "50ms") true) SuccessPtr true =
      Some ((stepResult child SuccessPtr false).1 && negb true, true).
Proof.
  exact (timeout_Result_success
           (timeoutOf "50ms")
           (mkSchedule true [FromTimer; FromWait (Some ErrInterrupted)])
           (set_timedOut (timeoutOf "50ms") true)
           [Invoke; CloseReady; NewTimer 50000000; SignalChild Kill]
           (Some ErrStepTimedOut) true eq_refl).
Defined.

Lemma timeout_Result_other_slot_witness :
  VersionInfoPtr <> SuccessPtr /\
  Result (timeoutOf "50ms") VersionInfoPtr (mkVersionInfo [] []) =
    Some (mkVersionInfo [] [], false) /\
  stepResult task VersionInfoPtr (mkVersionInfo [] []) =
    (mkVersionInfo [("ref", "abc")] [], true).
Proof.
  split; [discriminate|]. split; [|reflexivity].
  apply (timeout_Result_other_slot (timeoutOf "50ms") VersionInfoPtr). discriminate.
Defined.

End TimeoutInstances.

(** ** The compose step *)

Section ComposeFacts.
Import exec compose_step compose_invariant.

(** Evaluation of [quiesce], one stage at a time, with a case analysis on
    whatever a stage is stuck on (a buffer, or the error of an event). *)
Ltac blocker t :=
  match t with
  | context [match ?b with _ => _ end] => is_var b; destruct b
  end.

Ltac stage0 :=
  repeat match goal with
         | |- context [quiesce ?W] => let t := eval cbv in W in blocker t
         end;
  match goal with
  | |- context [quiesce ?W] =>
      let t := eval cbv in W in
      change (quiesce W) with (observe (settleB (observe (settleA t))))
  end.

Ltac stage1 :=
  repeat match goal with
         | |- context [observe (settleB (observe (settleA ?W)))] =>
             let t := eval cbv in (settleA W) in blocker t
         end;
  match goal with
  | |- context [observe (settleB (observe (settleA ?W)))] =>
      let t := eval cbv in (settleA W) in
      change (observe (settleB (observe (settleA W)))) with (observe (settleB (observe t)))
  end.

Ltac stage2 :=
  repeat match goal with
         | |- context [observe (settleB (observe ?W))] =>
             let t := eval cbv in (observe W) in blocker t
         end;
  match goal with
  | |- context [observe (settleB (observe ?W))] =>
      let t := eval cbv in (observe W) in
      change (observe (settleB (observe W))) with (observe (settleB t))
  end.

Ltac stage3 :=
  repeat match goal with
         | |- context [observe (settleB ?W)] =>
             let t := eval cbv in (settleB W) in blocker t
         end;
  match goal with
  | |- context [observe (settleB ?W)] =>
      let t := eval cbv in (settleB W) in
      change (observe (settleB W)) with (observe t)
  end.

Ltac stage4 :=
  repeat match goal with
         | |- context [observe ?W] =>
             let t := eval cbv in (observe W) in blocker t
         end;
  match goal with
  | |- context [observe ?W] =>
      let t := eval cbv in (observe W) in change (observe W) with t
  end.

Ltac run_quiesce := stage0; stage1; stage2; stage3; stage4.

Ltac closed_goal :=
  match goal with
  | |- forall c, _ ∈ _ <-> _ =>
      intros c; rewrite ?elem_of_cons;
      match goal with H : forall c, c ∈ _ <-> _ |- _ => rewrite (H c) end;
      destruct c; intuition congruence
  end.

Ltac facts := repeat split; first [reflexivity | left; reflexivity | right; reflexivity].

Ltac progress_goal :=
  first [ facts | left; eexists; facts | right; facts ].

Ltac crush_inv :=
  run_quiesce; split; cbn; unfold quiet; cbn; try done;
  first [ closed_goal | progress_goal ].

(** What [deliver] does with an event: the send blocks, or the system runs. *)
Ltac sent :=
  cbn [deliver stepA stepB start finish];
  repeat match goal with |- match ?b with _ => _ end = _ -> _ => destruct b end;
  intros [= <-].

Lemma boot_inv : inv boot.
Proof.
  split; simpl; try done.
  - intros c. cbn. rewrite elem_of_nil. intuition congruence.
  - auto 10.
Qed.

(** Every event keeps the invariant: by cases on how far the compose step
    has come, where its child stands, and what arrives. *)
Lemma deliver_inv w ev w' : inv w -> deliver w ev = Some w' -> inv w'.
Proof.
  intros [HuA Hf Hr (HA1 & HA2 & HA3) HqA HqB Hrel Hcl Hp].
  destruct w as [uA uB [[rcA nA rA cA sA relA] stA fA] [[rcB nB rB cB sB relB] stB fB]
                   cl [pv rp f1 f2 sg pr] rel].
  unfold quiet in *. simpl in *. subst.
  destruct pr as [| |e].
  - destruct Hp as ([->| ->] & -> & -> & [= -> -> -> -> -> ->] & -> & ->); simpl in *;
      destruct HqA as [-> ->];
      destruct ev as [e|e|e|e|sig]; sent; crush_inv.
  - destruct Hp as (-> & -> & -> & -> & -> & [->| ->] & -> & -> & -> & ->); simpl in *;
      destruct HqB as [-> ->];
      destruct ev as [e|e|e|e|sig]; sent; crush_inv.
  - destruct Hp as [(e' & -> & -> & [= -> -> -> -> -> ->] & -> & ->)
                   |(-> & -> & -> & -> & -> & -> & -> & -> & ->)]; simpl in *;
      destruct ev as [e0|e0|e0|e0|sig]; sent; crush_inv.
Qed.

Lemma run_inv evs : forall w w', inv w -> run w evs = Some w' -> inv w'.
Proof.
  induction evs as [|ev evs IH]; intros w w' Hw; simpl.
  - by intros [= <-].
  - destruct (deliver w ev) as [w1|] eqn:Hev; [|done].
    apply IH. by eapply deliver_inv.
Qed.

Lemma reachable_inv evs w : run boot evs = Some w -> inv w.
Proof. apply run_inv, boot_inv. Qed.




End ComposeFacts.

Section ComposeClaims.
Import exec compose_step compose_invariant.

(** C2, amended.  The ready channel of the compose step's process is closed
    exactly when the second step has closed the ready channel it was handed:
    it is open for as long as the first step starts or runs and while the
    second step is starting, and it is closed once the second step runs. *)
Theorem compose_ready_closes_with_second evs w :
  run boot evs = Some w ->
  processReady w = closedReady (fake (stepB w)) /\
  (progressOf (step w) = OnFirst -> processReady w = false) /\
  (now (fake (stepB w)) = Starting -> processReady w = false) /\
  (now (fake (stepB w)) = Running -> processReady w = true).
Proof.
  intros Hrun. pose proof (reachable_inv _ _ Hrun) as Hinv.
  assert (Hready : processReady w = closedReady (fake (stepB w))).
  { unfold processReady. pose proof (inv_closed _ Hinv readyOfProcess) as Hc.
    destruct (closedReady (fake (stepB w))).
    - apply bool_decide_eq_true. apply Hc. by right.
    - apply bool_decide_eq_false. intros Hin. apply Hc in Hin as [[? _]|[_ ?]]; done. }
  pose proof (inv_quietB _ Hinv) as HqB. unfold quiet in HqB.
  rewrite Hready. split; [done|]. split; [|split].
  - intros Hfirst. pose proof (inv_progress _ Hinv) as Hp. rewrite Hfirst in Hp.
    destruct Hp as (_ & _ & _ & -> & _). done.
  - intros Hst. rewrite Hst in HqB. by destruct HqB.
  - intros Hst. rewrite Hst in HqB. by destruct HqB.
Qed.

(** C3.  When the first step's Run returns an error, whether it failed to
    start or failed after starting, the second factory's Using is never
    called, the second step is never run, and Run returns that error. *)
Theorem compose_first_error evs w e :
  run boot evs = Some w ->
  now (fake (stepA w)) = Exited (Some e) ->
  usingB w = [] /\ runCalls (fake (stepB w)) = 0%nat /\ processExit w = Some (Some e).
Proof.
  intros Hrun HA. pose proof (inv_progress _ (reachable_inv _ _ Hrun)) as Hp.
  unfold processExit. destruct (progressOf (step w)) as [| |e0].
  - destruct Hp as ([Hs|Hs] & _); congruence.
  - destruct Hp as (Hs & _); congruence.
  - destruct Hp as [(e' & Hs & -> & -> & -> & _)|(Hs & _)]; [|congruence].
    rewrite HA in Hs. by injection Hs as ->.
Qed.



(** C8.  Release, called once Run has returned, releases the children that
    were constructed, each once and the second before the first: both when
    the second factory's Using was called, the first alone when it was not. *)
Theorem compose_Release_constructed evs w e :
  run boot evs = Some w ->
  processExit w = Some e ->
  let w' := compose_Release w in
  releaseOrder w' = (if bool_decide (usingB w = []) then [outStepA] else [outStepB; outStepA]) /\
  releaseCalls (fake (stepA w')) = 1%nat /\
  releaseCalls (fake (stepB w')) = List.length (usingB w).
Proof.
  intros Hrun Hexit. pose proof (reachable_inv _ _ Hrun) as Hinv.
  pose proof (inv_progress _ Hinv) as Hp.
  destruct Hinv as [_ Hf _ (_ & _ & HrA) _ _ Hrel _ _].
  unfold processExit in Hexit. unfold compose_Release. simpl.
  destruct (progressOf (step w)) as [| |e0]; [done..|].
  rewrite Hf.
  destruct Hp as [(e' & _ & _ & HB & -> & ->)|(_ & _ & _ & -> & -> & _ & _ & _ & HrB)]; simpl.
  - by rewrite Hrel, HrA, HB.
  - by rewrite Hrel, HrA, HrB.
Qed.

End ComposeClaims.

Section ComposeInstances.
Import exec compose_step compose_invariant.

(** C2, as stated, fails as soon as the first step is ready: it has closed
    its ready channel and runs, it is the child the compose step waits for,
    and the ready channel of the compose step's process is still open (the
    test asserts as much, "while the first step is running"). *)
Lemma compose_ready_open_while_first_runs :
  exists w,
    run boot [SendStartA None] = Some w /\
    progressOf (step w) = OnFirst /\
    now (fake (stepA w)) = Running /\
    closedReady (fake (stepA w)) = true /\
    processReady w = false.
Proof. eexists. split; [vm_compute; reflexivity|]. vm_compute. repeat split. Qed.

Lemma compose_ready_closes_with_second_witness :
  exists w,
    run boot [SendStartA None; SendFinishA None; SendStartB None] = Some w /\
    processReady w = closedReady (fake (stepB w)) /\
    (progressOf (step w) = OnFirst -> processReady w = false) /\
    (now (fake (stepB w)) = Starting -> processReady w = false) /\
    (now (fake (stepB w)) = Running -> processReady w = true).
Proof.
  eexists. split; [vm_compute; reflexivity|].
  apply (compose_ready_closes_with_second
           [SendStartA None; SendFinishA None; SendStartB None]).
  vm_compute; reflexivity.
Defined.

Lemma compose_first_error_witness :
  exists w,
    run boot [SendStartA None; SendFinishA (Some (ErrMsg "nope")); SendStartB None] = Some w /\
    usingB w = [] /\ runCalls (fake (stepB w)) = 0%nat /\
    processExit w = Some (Some (ErrMsg "nope")).
Proof.
  eexists. split; [vm_compute; reflexivity|].
  apply (compose_first_error
           [SendStartA None; SendFinishA (Some (ErrMsg "nope")); SendStartB None]);
    vm_compute; reflexivity.
Defined.



Lemma compose_Release_constructed_witness :
  exists w,
    run boot [SendStartA None; SendFinishA None; SendStartB None; SendFinishB None] = Some w /\
    usingB w = [(outStepA, theRepo)] /\
    releaseOrder (compose_Release w) =
      (if bool_decide (usingB w = []) then [outStepA] else [outStepB; outStepA]) /\
    releaseCalls (fake (stepA (compose_Release w))) = 1%nat /\
    releaseCalls (fake (stepB (compose_Release w))) = List.length (usingB w).
Proof.
  eexists. split; [vm_compute; reflexivity|]. split; [vm_compute; reflexivity|].
  apply (compose_Release_constructed
           [SendStartA None; SendFinishA None; SendStartB None; SendFinishB None] _ None);
    vm_compute; reflexivity.
Defined.

End ComposeInstances.

(** ** The configuration validator *)

Section ConfigClaims.
Import config.
Context `{exec.GoTime} `{Atc}.

(** The rendering never reads the [PluginsErr] field. *)
Lemma Error_ignores_PluginsErr g r j p p' :
  Error {| GroupsErr := g; ResourcesErr := r; JobsErr := j; PluginsErr := p |} =
  Error {| GroupsErr := g; ResourcesErr := r; JobsErr := j; PluginsErr := p' |}.
Proof. reflexivity. Qed.

(** C10.  When groups, resources and jobs validate and the plugins do not,
    ValidateConfig returns an InvalidConfigError that carries the plugin
    error, and the message of that error is the bare heading: it says
    nothing of the plugins. *)
Theorem ValidateConfig_plugins_error_unrendered (c : Config) (e : string) :
  validateGroups c = None ->
  validateResources c = None ->
  validateJobs c = None ->
  validatePlugins c = Some e ->
  exists err,
    ValidateConfig c = Some err /\
    PluginsErr err = Some e /\
    Error err = "invalid configuration:".
Proof.
  intros Hg Hr Hj Hp. unfold ValidateConfig. rewrite Hg, Hr, Hj, Hp.
  eexists. split; [reflexivity|]. split; reflexivity.
Qed.

End ConfigClaims.

Section ConfigInstances.
Import config fixtures gotime.

Lemma ValidateConfig_plugins_error_unrendered_witness :
  validatePlugins namelessPlugin =
    Some ("plugins[0] has no name" +:+ nl +:+ "plugins[0] has no image") /\
  exists err,
    ValidateConfig namelessPlugin = Some err /\
    PluginsErr err = Some ("plugins[0] has no name" +:+ nl +:+ "plugins[0] has no image") /\
    Error err = "invalid configuration:".
Proof.
  split; [vm_compute; reflexivity|].
  apply (ValidateConfig_plugins_error_unrendered namelessPlugin); vm_compute; reflexivity.
Defined.

End ConfigInstances.

(** ** The assertions of exec/compose_test.go, on the model

    Each example is one [It] of the test file: the sends of its
    [BeforeEach] blocks, the signal of its body, and what it expects. *)

Section ComposeTest.
Import exec compose_step fixtures.

Example signalling_first_step_starting :
  observed <$> run boot [ProcessSignal Interrupt] =
  Some (Some (Some ErrInterrupted), false, 0%nat, 0%nat).
Proof. vm_compute. reflexivity. Qed.

Example signalling_first_step_running :
  observed <$> run boot [SendStartA None] = Some (None, false, 0%nat, 0%nat) /\
  observed <$> run boot [SendStartA None; ProcessSignal Interrupt] =
  Some (Some (Some ErrInterrupted), false, 0%nat, 0%nat).
Proof. split; vm_compute; reflexivity. Qed.

Example signalling_second_step_starting :
  observed <$> run boot [SendStartA None; SendFinishA None] = Some (None, false, 1%nat, 1%nat) /\
  observed <$> run boot [SendStartA None; SendFinishA None; ProcessSignal Interrupt] =
  Some (Some (Some ErrInterrupted), false, 1%nat, 1%nat).
Proof. split; vm_compute; reflexivity. Qed.

Example signalling_second_step_running :
  observed <$> run boot [SendStartA None; SendFinishA None; SendStartB None] =
  Some (None, true, 1%nat, 1%nat) /\
  observed <$> run boot [SendStartA None; SendFinishA None; SendStartB None;
                         ProcessSignal Interrupt] =
  Some (Some (Some ErrInterrupted), true, 1%nat, 1%nat).
Proof. split; vm_compute; reflexivity. Qed.

Example both_sources_exit_successfully :
  let evs := [SendStartA None; SendFinishA None; SendStartB None; SendFinishB None] in
  processExit <$> run boot evs = Some (Some None) /\
  released <$> run boot evs = Some (1%nat, 1%nat) /\
  (fun w => compose_Result (Some (successResult true)) w SuccessPtr false) <$> run boot evs =
  Some (Some (true, true)).
Proof. repeat split; vm_compute; reflexivity. Qed.

Example second_source_fails_to_start :
  let evs := [SendStartA None; SendFinishA None; SendStartB (Some (ErrMsg "nope"))] in
  processExit <$> run boot evs = Some (Some (Some (ErrMsg "nope"))) /\
  released <$> run boot evs = Some (1%nat, 1%nat).
Proof. split; vm_compute; reflexivity. Qed.

Example first_source_fails_to_start :
  let evs := [SendStartA (Some (ErrMsg "nope"))] in
  observed <$> run boot evs = Some (Some (Some (ErrMsg "nope")), false, 0%nat, 0%nat) /\
  released <$> run boot evs = Some (1%nat, 0%nat).
Proof. split; vm_compute; reflexivity. Qed.

Example first_source_exits_with_an_error :
  let evs := [SendStartA None; SendFinishA (Some (ErrMsg "nope"))] in
  observed <$> run boot evs = Some (Some (Some (ErrMsg "nope")), false, 0%nat, 0%nat) /\
  released <$> run boot evs = Some (1%nat, 0%nat).
Proof. split; vm_compute; reflexivity. Qed.

End ComposeTest.

(** ** More of the timeout step *)

Section TimeoutMore.
Import exec timeout_step race.
Context `{GoTime}.

Lemma dance_done st sel :
  done (dance st sel) = done st ++ map forwarded (before_exit sel).
Proof.
  revert st. induction sel as [|r sel IH]; intros st; simpl.
  - by rewrite app_nil_r.
  - destruct r; simpl.
    + by rewrite app_nil_r.
    + rewrite IH. simpl. by rewrite <- app_assoc.
    + rewrite IH. simpl. by rewrite <- app_assoc.
Qed.

Lemma dance_exit st sel :
  exited st = false ->
  exited (dance st sel) = bool_decide (child_exit sel <> None) /\
  (forall e, child_exit sel = Some e -> runErr (dance st sel) = e).
Proof.
  revert st. induction sel as [|r sel IH]; intros st Hst; simpl.
  - by rewrite Hst.
  - destruct r; simpl.
    + split; [done|]. by intros e [= ->].
    + by apply IH.
    + by apply IH.
Qed.

Lemma dance_ticked st sel :
  ts_timedOut (dance st sel) = ts_timedOut st || ticked sel /\
  timeoutErr (dance st sel) =
    if ticked sel then Some ErrStepTimedOut else timeoutErr st.
Proof.
  unfold ticked. revert st. induction sel as [|r sel IH]; intros st; simpl.
  - by rewrite orb_false_r.
  - destruct r; simpl.
    + by rewrite orb_false_r.
    + destruct (IH (mkLoop true (runErr st) (Some ErrStepTimedOut)
                      (done st ++ [SignalChild Kill]) false)) as [-> ->]. simpl.
      rewrite orb_true_r. by destruct (existsb _ _).
    + destruct (IH (mkLoop (ts_timedOut st) (runErr st) (timeoutErr st)
                      (done st ++ [SignalChild sig]) false)) as [-> ->]. done.
Qed.

(** X1.  With a duration that parses, what Run does is: start the child,
    close ready, create the timer, and then, turn by turn until the child's
    Run has returned, send the child the signal it received or a kill for a
    tick of the timer; it sends nothing else and nothing afterwards. *)
Theorem timeout_Run_effects ts child d sch :
  runStep ts = Some child ->
  ParseDuration (duration ts) = inl d ->
  childReadyOrExited sch = true ->
  (Run ts sch).1.2 =
    [Invoke; CloseReady; NewTimer d] ++ map forwarded (before_exit (selects sch)).
Proof.
  intros Hchild Hparse Hready. unfold Run. rewrite Hchild, Hparse, Hready. simpl.
  set (st0 := mkLoop _ _ _ _ _).
  assert (Hd : done (dance st0 (selects sch)) =
               [Invoke; CloseReady; NewTimer d] ++ map forwarded (before_exit (selects sch))).
  { by rewrite dance_done. }
  destruct (exited _); simpl; [|done].
  destruct (timeoutErr _); [done|]. by destruct (runErr _).
Qed.

Lemma Run_timedOut ts child d sch :
  runStep ts = Some child ->
  ParseDuration (duration ts) = inl d ->
  childReadyOrExited sch = true ->
  timedOut (Run ts sch).1.1 = timedOut ts || ticked (selects sch).
Proof.
  intros Hchild Hparse Hready. unfold Run. rewrite Hchild, Hparse, Hready. simpl.
  set (st0 := mkLoop _ _ _ _ _).
  destruct (dance_ticked st0 (selects sch)) as [Ht _].
  destruct (exited _); simpl; [|done].
  destruct (timeoutErr _); [done|]. by destruct (runErr _).
Qed.

(** X2.  With a duration that parses, Run returns exactly when the child's
    Run has returned: StepTimedOut when the timer ticked before that, the
    child's own error otherwise; and it leaves timedOut set exactly when it
    was set before or the timer ticked. *)
Theorem timeout_Run_outcome ts child d sch :
  runStep ts = Some child ->
  ParseDuration (duration ts) = inl d ->
  childReadyOrExited sch = true ->
  (Run ts sch).2 =
    match child_exit (selects sch) with
    | None => Blocked
    | Some e => Returned (if ticked (selects sch) then Some ErrStepTimedOut else e)
    end /\
  timedOut (Run ts sch).1.1 = timedOut ts || ticked (selects sch).
Proof.
  intros Hchild Hparse Hready. split; [|by eapply Run_timedOut].
  unfold Run. rewrite Hchild, Hparse, Hready. simpl.
  set (st0 := mkLoop _ _ _ _ _).
  destruct (dance_exit st0 (selects sch) eq_refl) as [Hex Herr].
  destruct (dance_ticked st0 (selects sch)) as [_ He].
  rewrite Hex.
  destruct (child_exit (selects sch)) as [e|] eqn:Hce; simpl.
  - rewrite He, (Herr e eq_refl). simpl.
    destruct (ticked (selects sch)); simpl; [done|]. by destruct e.
  - done.
Qed.

(** X3.  After a Run that returned, on a step that had not timed out and
    whose duration parses, the Success that Result reports is the child's
    Success when the child's Run returned before any tick of the timer, and
    false when the timer ticked first, whatever the child says. *)
Theorem timeout_Result_after_Run ts child d sch ts' eff e (v : Success) :
  runStep ts = Some child ->
  timedOut ts = false ->
  ParseDuration (duration ts) = inl d ->
  Run ts sch = (ts', eff, Returned e) ->
  Result ts' SuccessPtr v =
    Some (if ticked (selects sch) then false
          else (stepResult child SuccessPtr false).1, true).
Proof.
  intros Hchild Hfresh Hparse Hrun.
  assert (Hready : childReadyOrExited sch = true).
  { unfold Run in Hrun. rewrite Hchild in Hrun.
    by destruct (childReadyOrExited sch). }
  pose proof (Run_timedOut ts child d sch Hchild Hparse Hready) as Ht.
  pose proof (Run_keeps_runStep ts sch) as Hsame.
  rewrite Hrun in Ht, Hsame. simpl in Ht, Hsame.
  simpl. rewrite Hsame, Hchild, Ht, Hfresh. simpl.
  destruct (ticked (selects sch)); simpl; [by rewrite andb_false_r|by rewrite andb_true_r].
Qed.

End TimeoutMore.

Section TimeoutMoreInstances.
Import exec timeout_step race fixtures gotime.

Lemma timeout_Run_effects_witness :
  (Run (timeoutOf "50ms")
       (mkSchedule true [FromSignals Interrupt; FromTimer; FromSignals (Sig 15);
                         FromWait None; FromSignals Kill])).1.2 =
  [Invoke; CloseReady; NewTimer 50000000;
   SignalChild Interrupt; SignalChild Kill; SignalChild (Sig 15)].
Proof.
  exact (timeout_Run_effects (timeoutOf "50ms") task 50000000
           (mkSchedule true [FromSignals Interrupt; FromTimer; FromSignals (Sig 15);
                             FromWait None; FromSignals Kill])
           eq_refl eq_refl eq_refl).
Defined.

Lemma timeout_Run_outcome_witness :
  (Run (timeoutOf "1h") (mkSchedule true [FromSignals Interrupt; FromWait (Some ErrInterrupted)])).2 =
    Returned (Some ErrInterrupted) /\
  timedOut (Run (timeoutOf "1h")
              (mkSchedule true [FromSignals Interrupt; FromWait (Some ErrInterrupted)])).1.1 = false.
Proof.
  exact (timeout_Run_outcome (timeoutOf "1h") task 3600000000000
           (mkSchedule true [FromSignals Interrupt; FromWait (Some ErrInterrupted)])
           eq_refl eq_refl eq_refl).
Defined.

Lemma timeout_Result_after_Run_witness :
  stepResult task SuccessPtr false = (true, true) /\
  Result (set_timedOut (timeoutOf "50ms") true) SuccessPtr true = Some (false, true).
Proof.
  split; [reflexivity|].
  exact (timeout_Result_after_Run (timeoutOf "50ms") task 50000000
           (mkSchedule true [FromTimer; FromWait None])
           (set_timedOut (timeoutOf "50ms") true)
           [Invoke; CloseReady; NewTimer 50000000; SignalChild Kill]
           (Some ErrStepTimedOut) true eq_refl eq_refl eq_refl eq_refl).
Defined.

End TimeoutMoreInstances.

(** ** More of the configuration validator: the rendering of errors *)

Section Rendering.
Import config config_facts.

Lemma append_String c (s t : string) : String c s +:+ t = String c (s +:+ t).
Proof. reflexivity. Qed.

Lemma append_empty_l (t : string) : "" +:+ t = t.
Proof. reflexivity. Qed.

Lemma append_empty_r (s : string) : s +:+ "" = s.
Proof. induction s as [|c s IH]; [done|]. by rewrite append_String, IH. Qed.

Lemma SplitLines_nonempty s : SplitLines s <> [].
Proof.
  destruct s as [|c s]; simpl; [done|].
  case_bool_decide; [done|]. by destruct (SplitLines s).
Qed.

Lemma Join_cons (x y : string) (l : list string) (sep : string) :
  Join (x :: y :: l) sep = x +:+ sep +:+ Join (y :: l) sep.
Proof. reflexivity. Qed.

Lemma Join_one (x sep : string) : Join [x] sep = x.
Proof. reflexivity. Qed.

(** Splitting at the newlines and joining with newlines gives the string
    back. *)
Lemma Join_SplitLines s : Join (SplitLines s) nl = s.
Proof.
  induction s as [|c s IH]; [done|]. simpl.
  pose proof (SplitLines_nonempty s) as Hne.
  destruct (SplitLines s) as [|l ls] eqn:Hs; [done|].
  case_bool_decide as Hc.
  - rewrite Join_cons, IH, append_empty_l. unfold nl.
    by rewrite append_String, append_empty_l, Hc.
  - destruct ls as [|y ls].
    + rewrite Join_one in *. by rewrite IH.
    + rewrite Join_cons in *. by rewrite append_String, IH.
Qed.

Lemma SplitLines_oneLine s : oneLine s = true -> SplitLines s = [s].
Proof.
  induction s as [|c s IH]; [done|]. simpl.
  intros [Hc Hs]%andb_prop. apply negb_true_iff, bool_decide_eq_false in Hc.
  rewrite bool_decide_false by done. by rewrite (IH Hs).
Qed.

Lemma SplitLines_append_nl l rest :
  oneLine l = true -> SplitLines (l +:+ nl +:+ rest) = l :: SplitLines rest.
Proof.
  induction l as [|c l IH].
  - intros _. reflexivity.
  - intros [Hc Hl]%andb_prop. apply negb_true_iff, bool_decide_eq_false in Hc.
    rewrite append_String. cbn [SplitLines].
    rewrite bool_decide_false by done. by rewrite (IH Hl).
Qed.

(** Joining lines with newlines and splitting again gives the lines back,
    provided there is at least one line and no line holds a newline
    itself. *)
Lemma SplitLines_Join (ls : list string) :
  ls <> [] -> Forall (fun l => oneLine l = true) ls ->
  SplitLines (Join ls nl) = ls.
Proof.
  intros Hne Hall. induction Hall as [|l ls Hl Hall IH]; [done|].
  destruct ls as [|y ls].
  - by apply SplitLines_oneLine.
  - rewrite Join_cons, SplitLines_append_nl by done. by rewrite IH.
Qed.

Lemma SplitLines_lines s : Forall (fun l => oneLine l = true) (SplitLines s).
Proof.
  induction s as [|c s IH]; simpl; [by repeat constructor|].
  case_bool_decide as Hc.
  - by constructor.
  - destruct (SplitLines s) as [|l ls].
    + constructor; [|constructor]. simpl. by rewrite bool_decide_false.
    + inversion_clear IH as [|? ? Hl Hls]. constructor; [|done].
      simpl. rewrite Hl. by rewrite bool_decide_false.
Qed.

Lemma SplitLines_tabs (ls : list string) :
  ls <> [] -> Forall (fun l => oneLine l = true) ls ->
  SplitLines (Join (map (fun l => tab +:+ l) ls) nl) = map (fun l => tab +:+ l) ls.
Proof.
  intros Hne Hall. apply SplitLines_Join; [by destruct ls|].
  apply Forall_map. eapply Forall_impl; [exact Hall|].
  intros l Hl. unfold tab. by rewrite append_String, append_empty_l.
Qed.

(** X4.  [indent] keeps the lines of its argument, in order, and puts one
    tab in front of each, an empty line included. *)
Theorem indent_lines s :
  SplitLines (indent s) = map (fun l => tab +:+ l) (SplitLines s).
Proof.
  unfold indent. apply SplitLines_tabs; [apply SplitLines_nonempty|apply SplitLines_lines].
Qed.

(** X5.  The messages that a validator hands to compositeErr come out of
    indent one to a line, in order, each behind one tab, provided no
    message holds a newline itself. *)
Theorem indent_compositeErr (errorMessages : list string) (m : string) :
  compositeErr errorMessages = Some m ->
  Forall (fun l => oneLine l = true) errorMessages ->
  SplitLines (indent m) = map (fun l => tab +:+ l) errorMessages.
Proof.
  intros Hm Hall. destruct errorMessages as [|x xs]; [done|].
  change (Some (Join (x :: xs) nl) = Some m) in Hm. apply (inj Some) in Hm as <-.
  unfold indent. rewrite (SplitLines_Join (x :: xs)) by done. by apply SplitLines_tabs.
Qed.

Lemma SplitLines_append (a b : string) :
  SplitLines (a +:+ nl +:+ b) = SplitLines a ++ SplitLines b.
Proof.
  induction a as [|c a IH]; [done|].
  rewrite append_String. cbn [SplitLines]. rewrite IH.
  case_bool_decide; [done|].
  pose proof (SplitLines_nonempty a). by destruct (SplitLines a).
Qed.

Lemma SplitLines_Join_cons (x : string) (xs : list string) :
  SplitLines (Join (x :: xs) nl) = SplitLines x ++ List.concat (map SplitLines xs).
Proof.
  revert x. induction xs as [|y xs IH]; intros x.
  - by rewrite Join_one, app_nil_r.
  - by rewrite Join_cons, SplitLines_append, IH.
Qed.

Lemma indent_tabbed s : Forall (fun l => exists l', l = tab +:+ l') (SplitLines (indent s)).
Proof.
  unfold indent.
  rewrite SplitLines_tabs; [|apply SplitLines_nonempty|apply SplitLines_lines].
  apply Forall_map, Forall_forall. intros l _. by exists l.
Qed.

(** X6.  The first line of the message of an InvalidConfigError is the
    heading, and every line after it starts with a tab. *)
Theorem Error_lines (err : InvalidConfigError) :
  exists rest,
    SplitLines (Error err) = "invalid configuration:" :: rest /\
    Forall (fun l => exists l', l = tab +:+ l') rest.
Proof.
  destruct err as [g r j p]. unfold Error.
  destruct g, r, j; cbn [GroupsErr ResourcesErr JobsErr app];
    rewrite SplitLines_Join_cons;
    (eexists; split; [reflexivity|]);
    cbn [map List.concat]; rewrite ?Forall_app; split_and?;
    try apply indent_tabbed; constructor.
Qed.

Lemma Join_heading_longer (h x : string) (l : list string) : Join (h :: x :: l) nl <> h.
Proof.
  rewrite Join_cons. intros Heq.
  rewrite <- (append_empty_r h) in Heq at 2.
  apply String.app_inj in Heq. discriminate.
Qed.

(** X7.  The message of an InvalidConfigError is the bare heading exactly
    when its groups, resources and jobs errors are all nil, whatever its
    plugins error is. *)
Theorem Error_heading_only_iff (err : InvalidConfigError) :
  Error err = "invalid configuration:" <->
  GroupsErr err = None /\ ResourcesErr err = None /\ JobsErr err = None.
Proof.
  destruct err as [g r j p]. unfold Error. simpl. split.
  - intros Heq. destruct g, r, j; try done;
      simpl in Heq; by apply Join_heading_longer in Heq.
  - by intros (-> & -> & ->).
Qed.

End Rendering.

(** ** More of the configuration validator: the checks of names *)

Section ValidatorFacts.
Import config config_facts.
Context `{exec.GoTime} `{Atc}.

Lemma compositeErr_nil msgs : compositeErr msgs = None <-> msgs = [].
Proof. by destruct msgs. Qed.

Lemma is_empty_true s : is_empty s = true <-> s = "".
Proof. apply bool_decide_eq_true. Qed.

Lemma is_empty_false s : is_empty s = false <-> s <> "".
Proof. apply bool_decide_eq_false. Qed.

(** A list that starts with a message is not empty; the condition that
    would have let the message out is then refuted. *)
Ltac reported :=
  split; [intros Hnil; simpl in Hnil; discriminate Hnil | intuition congruence].

(** The names that are still free after [n] was entered. *)
Lemma fresh_after_insert {A} (name : A -> string) (names : gmap string nat) (i : nat)
    (n : string) (l : list A) :
  Forall (fun q => (<[n := i]> names) !! name q = None) l <->
  (n ∉ map name l) /\ Forall (fun q => names !! name q = None) l.
Proof.
  rewrite !Forall_forall, list_elem_of_In, in_map_iff.
  setoid_rewrite lookup_insert_None. setoid_rewrite <- list_elem_of_In. split.
  - intros Hall. split.
    + intros (x & Heq & Hin). destruct (Hall x Hin) as [_ Hne]. congruence.
    + intros x Hin. by destruct (Hall x Hin).
  - intros [Hnot Hall] x Hin. split; [by apply Hall|].
    intros Heq. apply Hnot. by exists x.
Qed.

Lemma pluginsLoop_nil names i l :
  pluginsLoop names i l = [] <->
  Forall (fun p => Plugin_Name p <> "" /\ Plugin_Image p <> "") l /\
  NoDup (map Plugin_Name l) /\
  Forall (fun p => names !! Plugin_Name p = None) l.
Proof.
  revert names i. induction l as [|p l IH]; intros names i; simpl.
  - split; [intros _; repeat constructor|done].
  - rewrite !Forall_cons, NoDup_cons. unfold sameName.
    destruct (names !! Plugin_Name p) as [other|] eqn:Hn; [reported|].
    destruct (is_empty (Plugin_Name p)) eqn:Hname.
    { apply is_empty_true in Hname. reported. }
    apply is_empty_false in Hname. simpl.
    destruct (is_empty (Plugin_Image p)) eqn:Himg.
    { apply is_empty_true in Himg. reported. }
    apply is_empty_false in Himg. simpl. rewrite IH.
    rewrite (fresh_after_insert Plugin_Name).
    intuition congruence.
Qed.

(** X8.  validatePlugins returns nil exactly when every plugin has a name
    and an image and no two plugins have the same name. *)
Theorem validatePlugins_nil_iff (c : Config) :
  validatePlugins c = None <->
  Forall (fun p => Plugin_Name p <> "" /\ Plugin_Image p <> "") (Plugins c) /\
  NoDup (map Plugin_Name (Plugins c)).
Proof.
  unfold validatePlugins. rewrite compositeErr_nil, pluginsLoop_nil.
  split; [intuition congruence|]. intros [? ?]. repeat split; try done.
  apply Forall_forall. intros. apply lookup_empty.
Qed.

Lemma resourcesLoop_nil names i l :
  resourcesLoop names i l = [] <->
  Forall (fun r => Resource_Name r <> "" /\ Resource_Type r <> "") l /\
  NoDup (map Resource_Name l) /\
  Forall (fun r => names !! Resource_Name r = None) l.
Proof.
  revert names i. induction l as [|p l IH]; intros names i; simpl.
  - split; [intros _; repeat constructor|done].
  - rewrite !Forall_cons, NoDup_cons. unfold sameName.
    destruct (names !! Resource_Name p) as [other|] eqn:Hn; [reported|].
    destruct (is_empty (Resource_Name p)) eqn:Hname.
    { apply is_empty_true in Hname. reported. }
    apply is_empty_false in Hname. simpl.
    destruct (is_empty (Resource_Type p)) eqn:Htype.
    { apply is_empty_true in Htype. reported. }
    apply is_empty_false in Htype. simpl. rewrite IH.
    rewrite (fresh_after_insert Resource_Name).
    intuition congruence.
Qed.

(** X9.  validateResources returns nil exactly when every resource has a
    name and a type and no two resources have the same name. *)
Theorem validateResources_nil_iff (c : Config) :
  validateResources c = None <->
  Forall (fun r => Resource_Name r <> "" /\ Resource_Type r <> "") (Resources c) /\
  NoDup (map Resource_Name (Resources c)).
Proof.
  unfold validateResources. rewrite compositeErr_nil, resourcesLoop_nil.
  split; [intuition congruence|]. intros [? ?]. repeat split; try done.
  apply Forall_forall. intros. apply lookup_empty.
Qed.

Lemma flat_map_nil {A B} (f : A -> list B) (l : list A) :
  flat_map f l = [] <-> Forall (fun x => f x = []) l.
Proof.
  induction l as [|x l IH]; simpl.
  - split; [constructor|done].
  - rewrite Forall_cons, <- IH. apply app_nil.
Qed.

Lemma exists_job_true c job :
  exists_job c job = true <-> is_Some (JobConfigs_Lookup (Jobs c) job).
Proof.
  unfold exists_job. destruct (JobConfigs_Lookup _ _); split; try done; by intros [? ?].
Qed.

Lemma exists_resource_true c resource :
  exists_resource c resource = true <-> is_Some (ResourceConfigs_Lookup (Resources c) resource).
Proof.
  unfold exists_resource.
  destruct (ResourceConfigs_Lookup _ _); split; try done; by intros [? ?].
Qed.

Lemma unless_nil {A} (b : bool) (x : A) : (if b then [] else [x]) = [] <-> b = true.
Proof. by destruct b. Qed.

(** X10.  validateGroups returns nil exactly when Lookup finds every job
    and every resource that a group lists. *)
Theorem validateGroups_nil_iff (c : Config) :
  validateGroups c = None <->
  Forall (fun group =>
            Forall (fun job => is_Some (JobConfigs_Lookup (Jobs c) job)) (Group_Jobs group) /\
            Forall (fun resource => is_Some (ResourceConfigs_Lookup (Resources c) resource))
                   (Group_Resources group))
         (Groups c).
Proof.
  unfold validateGroups. rewrite compositeErr_nil, flat_map_nil.
  apply Forall_proper; [|done]. intros group.
  rewrite app_nil, !flat_map_nil.
  split; intros [Hj Hr]; split.
  - eapply Forall_impl; [exact Hj|]. intros job. simpl.
    by rewrite unless_nil, exists_job_true.
  - eapply Forall_impl; [exact Hr|]. intros r. simpl.
    by rewrite unless_nil, exists_resource_true.
  - eapply Forall_impl; [exact Hj|]. intros job. simpl.
    by rewrite unless_nil, exists_job_true.
  - eapply Forall_impl; [exact Hr|]. intros r. simpl.
    by rewrite unless_nil, exists_resource_true.
Qed.

Lemma jobsLoop_nil c names i l :
  jobsLoop c names i l = [] ->
  Forall (fun job =>
            Job_Name job <> "" /\
            (Plan job <> None ->
             Job_TaskConfig job = None /\ Job_TaskConfigPath job = "" /\
             InputConfigs job = [] /\ OutputConfigs job = [])) l /\
  NoDup (map Job_Name l) /\
  Forall (fun job => names !! Job_Name job = None) l.
Proof.
  revert names i. induction l as [|job l IH]; intros names i; simpl.
  - intros _. repeat constructor.
  - rewrite !Forall_cons, NoDup_cons. unfold sameName.
    destruct (names !! Job_Name job) as [other|] eqn:Hn; [done|].
    destruct (is_empty (Job_Name job)) eqn:Hname; [done|].
    apply is_empty_false in Hname. simpl.
    destruct (bool_decide (Plan job <> None) && _) eqn:Hboth; [done|].
    intros Hrest. do 4 apply app_nil in Hrest as [_ Hrest].
    apply IH in Hrest as (Hall & Hnd & Hfresh).
    apply (fresh_after_insert Job_Name) in Hfresh as [Hnew Hfresh].
    split_and!; try done.
    intros Hplan. apply andb_false_iff in Hboth as [Hb|Hb];
      [by apply bool_decide_eq_false in Hb|].
    apply orb_false_iff in Hb as [[[Hc Hp]%orb_false_iff Hi]%orb_false_iff Ho].
    apply bool_decide_eq_false in Hc. apply negb_false_iff in Hp, Hi, Ho.
    apply is_empty_true in Hp. apply bool_decide_eq_true in Hi, Ho.
    split_and!; try done. by destruct (Job_TaskConfig job); [destruct Hc|].
Qed.

(** X11.  When validateJobs returns nil, every job has a name, no two jobs
    have the same name, and no job has a plan together with a task
    configuration, a task configuration path, inputs or outputs. *)
Theorem validateJobs_nil_names (c : Config) :
  validateJobs c = None ->
  Forall (fun job =>
            Job_Name job <> "" /\
            (Plan job <> None ->
             Job_TaskConfig job = None /\ Job_TaskConfigPath job = "" /\
             InputConfigs job = [] /\ OutputConfigs job = [])) (Jobs c) /\
  NoDup (map Job_Name (Jobs c)).
Proof.
  unfold validateJobs. rewrite compositeErr_nil. intros Hnil.
  apply jobsLoop_nil in Hnil as (? & ? & _). by split.
Qed.

Lemma sameName_keeps kind names i name n (o : nat) :
  names !! n = Some o -> (sameName kind names i name).1 !! n = Some o.
Proof.
  intros Hn. unfold sameName. destruct (names !! name) eqn:Hname; [done|].
  destruct (is_empty name); [done|]. simpl.
  rewrite lookup_insert_ne; [done|]. congruence.
Qed.

Lemma sameName_leaves kind names i name n :
  names !! n = None -> name <> n -> (sameName kind names i name).1 !! n = None.
Proof.
  intros Hn Hne. unfold sameName. destruct (names !! name) eqn:Hname; [done|].
  destruct (is_empty name); [done|]. simpl. by rewrite lookup_insert_ne.
Qed.

Lemma pluginsLoop_known names i l k q o :
  names !! Plugin_Name q = Some o ->
  l !! k = Some q ->
  sameNameMessage "plugins" o (i + k) (Plugin_Name q) ∈ pluginsLoop names i l.
Proof.
  revert names i k. induction l as [|r l IH]; intros names i k Hn Hk; [done|].
  simpl. destruct k as [|k]; simpl in Hk.
  - injection Hk as ->. unfold sameName. rewrite Hn, Nat.add_0_r.
    apply list_elem_of_here.
  - pose proof (sameName_keeps "plugins" names i (Plugin_Name r) _ _ Hn) as Hn'.
    destruct (sameName "plugins" names i (Plugin_Name r)) as [names' dup]. simpl in Hn'.
    rewrite !elem_of_app. do 3 right.
    replace (i + S k)%nat with (S i + k)%nat by lia. by apply IH.
Qed.

Lemma pluginsLoop_first names i l k k2 p q :
  names !! Plugin_Name p = None ->
  Plugin_Name p <> "" ->
  l !! k = Some p ->
  (forall k' r, (k' < k)%nat -> l !! k' = Some r -> Plugin_Name r <> Plugin_Name p) ->
  (k < k2)%nat ->
  l !! k2 = Some q ->
  Plugin_Name q = Plugin_Name p ->
  sameNameMessage "plugins" (i + k) (i + k2) (Plugin_Name p) ∈ pluginsLoop names i l.
Proof.
  revert names i k k2.
  induction l as [|r l IH]; intros names i k k2 Hn Hname Hk Hfirst Hlt Hk2 Hsame; [done|].
  destruct k2 as [|k2]; [lia|]. simpl in Hk2. simpl.
  destruct k as [|k]; simpl in Hk.
  - injection Hk as ->. unfold sameName. rewrite Hn.
    apply is_empty_false in Hname. rewrite Hname. simpl.
    rewrite elem_of_app. right.
    rewrite Nat.add_0_r. replace (i + S k2)%nat with (S i + k2)%nat by lia.
    rewrite <- Hsame. apply pluginsLoop_known; [|done].
    rewrite Hsame. apply lookup_insert_eq.
  - assert (Hne : Plugin_Name r <> Plugin_Name p) by (apply (Hfirst 0%nat); [lia|done]).
    pose proof (sameName_leaves "plugins" names i (Plugin_Name r) _ Hn Hne) as Hn'.
    destruct (sameName "plugins" names i (Plugin_Name r)) as [names' dup]. simpl in Hn'.
    rewrite !elem_of_app. do 3 right.
    replace (i + S k)%nat with (S i + k)%nat by lia.
    replace (i + S k2)%nat with (S i + k2)%nat by lia.
    apply IH; try done; [|lia].
    intros k' r' Hk' Hr'. apply (Hfirst (S k')); [lia|done].
Qed.

(** X12.  When a later plugin has the name of an earlier one, and the name
    is not empty, the error of validatePlugins has the message that names
    the index of the first plugin of that name and the index of the later
    one. *)
Theorem validatePlugins_reports_duplicate (c : Config) (i j : nat) (p q : PluginConfig) :
  Plugins c !! i = Some p ->
  Plugins c !! j = Some q ->
  (i < j)%nat ->
  Plugin_Name p <> "" ->
  Plugin_Name q = Plugin_Name p ->
  (forall k r, (k < i)%nat -> Plugins c !! k = Some r -> Plugin_Name r <> Plugin_Name p) ->
  exists msgs,
    validatePlugins c = Some (Join msgs nl) /\
    sameNameMessage "plugins" i j (Plugin_Name p) ∈ msgs.
Proof.
  intros Hi Hj Hlt Hname Hsame Hfirst.
  pose proof (pluginsLoop_first ∅ 0 (Plugins c) i j p q (lookup_empty _) Hname Hi Hfirst
                Hlt Hj Hsame) as Hin.
  simpl in Hin. unfold validatePlugins.
  exists (pluginsLoop ∅ 0 (Plugins c)). split; [|done].
  destruct (pluginsLoop ∅ 0 (Plugins c)); [|done]. by apply elem_of_nil in Hin.
Qed.

End ValidatorFacts.

(** ** More of the configuration validator: plans *)

Section PlanValidation.
Import exec config config_facts.
Context `{GoTime} `{Atc}.

Lemma found_count identifier plan :
  List.length (found (foundOf identifier plan)) = actionCount plan.
Proof.
  unfold foundOf, actionCount.
  destruct (is_empty (Get plan)), (is_empty (Put plan)), (is_empty (Task plan)),
    (bool_decide (Do plan <> None)), (bool_decide (Aggregate plan <> None)),
    (bool_decide (Try plan <> None)); reflexivity.
Qed.

Lemma foundOf_identifier identifier plan :
  ft_identifier (foundOf identifier plan) = identifier.
Proof.
  unfold foundOf.
  destruct (is_empty (Get plan)), (is_empty (Put plan)), (is_empty (Task plan)),
    (bool_decide (Do plan <> None)), (bool_decide (Aggregate plan <> None)),
    (bool_decide (Try plan <> None)); reflexivity.
Qed.

Lemma IsValid_one ft : (IsValid ft).1 = true <-> List.length (found ft) = 1%nat.
Proof. unfold IsValid. by destruct (found ft) as [|? [|? ?]]. Qed.

Lemma validatePlan_invalid c identifier plan :
  (IsValid (foundOf identifier plan)).1 = false ->
  validatePlan c identifier plan = [(IsValid (foundOf identifier plan)).2].
Proof.
  destruct plan. unfold foundOf. simpl.
  destruct (IsValid _) as [valid message]. simpl. by intros ->.
Qed.

Lemma eachPlan_cons c identifier infix i p rest :
  eachPlan c identifier infix i (p :: rest) =
  validatePlan c (identifier +:+ infix +:+ "[" +:+ itoa i +:+ "]") p ++
  eachPlan c identifier infix (S i) rest.
Proof. reflexivity. Qed.

Lemma eachPlan_nil c identifier infix i seq p :
  eachPlan c identifier infix i seq = [] -> p ∈ seq ->
  exists identifier', validatePlan c identifier' p = [].
Proof.
  revert i. induction seq as [|q seq IH]; intros i Hnil Hin.
  - by apply elem_of_nil in Hin.
  - rewrite eachPlan_cons in Hnil. apply app_nil in Hnil as [Hq Hrest].
    apply elem_of_cons in Hin as [->|Hin]; [by eexists|by eapply IH].
Qed.

Lemma validatePlan_one_action c identifier plan :
  validatePlan c identifier plan = [] -> actionCount plan = 1%nat.
Proof.
  intros Hnil. rewrite <- (found_count identifier). apply IsValid_one.
  destruct (IsValid (foundOf identifier plan)).1 eqn:Hvalid; [done|].
  by rewrite (validatePlan_invalid _ _ _ Hvalid) in Hnil.
Qed.

(** Decides a count of actions [H] that contradicts the case at hand. *)
Ltac tally H :=
  repeat match type of H with
  | context [bool_decide (Some ?x <> None)] =>
      rewrite (bool_decide_true (Some x <> None)) in H by done
  | context [bool_decide (None <> None)] =>
      rewrite (bool_decide_false (None <> None)) in H by (intros Hn; by apply Hn)
  | context [if ?b then _ else _] => destruct b
  end; simpl in H; lia.

(** What [validatePlan] has checked of a node when it returns no message:
    the plans below the node, and the timeout. *)
Lemma validatePlan_nil c identifier plan :
  validatePlan c identifier plan = [] ->
  (forall p, child plan p -> exists identifier', validatePlan c identifier' p = []) /\
  (Timeout plan <> "" -> exists d, ParseDuration (Timeout plan) = inl d).
Proof.
  intros Hnil.
  pose proof (validatePlan_one_action _ _ _ Hnil) as Hone.
  pose proof (proj2 (IsValid_one (foundOf identifier plan))) as Hvalid.
  rewrite found_count in Hvalid. specialize (Hvalid Hone).
  destruct plan as [get put task do agg try ens suc fai cond res passed trig priv cfg path
                      params tmo].
  unfold foundOf, actionCount in *. simpl in *.
  fold (eachPlan c identifier "" 0%nat) (eachPlan c identifier ".aggregate" 0%nat) in Hnil.
  destruct (IsValid _) as [valid message]. simpl in Hvalid. subst valid. simpl in Hnil.
  apply app_nil in Hnil as [Hnil Htmo]. apply app_nil in Hnil as [Hnil Hfai].
  apply app_nil in Hnil as [Hnil Hsuc]. apply app_nil in Hnil as [Hact Hens].
  split.
  - intros p [seq Hdo Hin|seq Hagg Hin|Htry|Hp|Hp|Hp]; simpl in *; subst.
    + by eapply eachPlan_nil.
    + destruct do; [tally Hone|]. by eapply eachPlan_nil.
    + destruct do, agg; try tally Hone.
      destruct (is_empty get), (is_empty put), (is_empty task); simpl in *;
        try tally Hone.
      by eexists.
    + by eexists.
    + by eexists.
    + by eexists.
  - intros Hset. apply is_empty_false in Hset. rewrite Hset in Htmo. simpl in Htmo.
    destruct (ParseDuration tmo); [by eexists|done].
Qed.

Lemma validateInapplicableFields_nil fields plan identifier :
  validateInapplicableFields fields plan identifier = [] <->
  Forall (fun field => fieldSet plan field = false) fields.
Proof.
  unfold validateInapplicableFields.
  assert (filter (fun field => fieldSet plan field = true) fields = [] <->
          Forall (fun field => fieldSet plan field = false) fields) as <-.
  { induction fields as [|f fields IH]; [by split; [constructor|]|].
    rewrite filter_cons, Forall_cons, <- IH.
    destruct (decide (fieldSet plan f = true)) as [Hf|Hf].
    - split; [done|]. intros [Hf' _]. congruence.
    - apply not_true_is_false in Hf. by split; [|intros [_ ?]]. }
  by destruct (filter _ fields).
Qed.

Lemma resourceCheck_nil c subIdentifier plan name :
  resourceCheck c subIdentifier plan name = [] <->
  is_Some (ResourceConfigs_Lookup (Resources c)
             (if is_empty (Resource plan) then name else Resource plan)).
Proof.
  unfold resourceCheck. rewrite <- exists_resource_true.
  destruct (is_empty (Resource plan)); simpl; apply unless_nil.
Qed.

Lemma existsb_name (name : string) (l : list string) :
  existsb (fun r => bool_decide (r = name)) l = true <-> name ∈ l.
Proof.
  rewrite existsb_exists, list_elem_of_In. split.
  - by intros (r & Hin & ->%bool_decide_eq_true).
  - intros Hin. exists name. by rewrite bool_decide_true.
Qed.

Lemma passedCheck_nil c subIdentifier plan :
  passedCheck c subIdentifier plan = [] <->
  Forall (fun job =>
            exists jobConfig,
              JobConfigs_Lookup (Jobs c) job = Some jobConfig /\
              (PlanConfig_ResourceName plan ∈ JobConfig_Inputs jobConfig \/
               PlanConfig_ResourceName plan ∈ JobConfig_Outputs jobConfig))
         (Passed plan).
Proof.
  unfold passedCheck. rewrite flat_map_nil. apply Forall_proper; [|done]. intros job.
  destruct (JobConfigs_Lookup (Jobs c) job) as [jobConfig|].
  - rewrite unless_nil, orb_true_iff, !existsb_name. split.
    + intros Hin. by exists jobConfig.
    + by intros (? & [= <-] & Hin).
  - split; [done|]. by intros (? & ? & _).
Qed.

(** What [validatePlan] has checked of a get, a put or a task when it
    returns no message. *)
Lemma validatePlan_nil_leaf c identifier plan :
  validatePlan c identifier plan = [] ->
  (Get plan <> "" ->
   exists subIdentifier,
     validateInapplicableFields ["privileged"; "config"; "file"] plan subIdentifier = [] /\
     resourceCheck c subIdentifier plan (Get plan) = [] /\
     passedCheck c subIdentifier plan = []) /\
  (Put plan <> "" ->
   exists subIdentifier,
     validateInapplicableFields ["passed"; "trigger"; "privileged"; "config"; "file"]
       plan subIdentifier = [] /\
     resourceCheck c subIdentifier plan (Put plan) = []) /\
  (Task plan <> "" ->
   exists subIdentifier,
     (Plan_TaskConfig plan <> None \/ Plan_TaskConfigPath plan <> "") /\
     validateInapplicableFields ["resource"; "passed"; "trigger"] plan subIdentifier = [] /\
     Params plan = None).
Proof.
  intros Hnil.
  pose proof (validatePlan_one_action _ _ _ Hnil) as Hone.
  pose proof (proj2 (IsValid_one (foundOf identifier plan))) as Hvalid.
  rewrite found_count in Hvalid. specialize (Hvalid Hone).
  destruct plan as [get put task do agg try ens suc fai cond res passed trig priv cfg path
                      params tmo].
  unfold foundOf, actionCount in *. simpl in *.
  destruct (IsValid _) as [valid message]. simpl in Hvalid. subst valid. simpl in Hnil.
  do 4 apply app_nil in Hnil as [Hnil _].
  split_and!; intros Hset; apply is_empty_false in Hset; rewrite Hset in *;
    destruct do, agg; try tally Hone; simpl in Hnil.
  - apply app_nil in Hnil as [Hfields [Hres Hpassed]%app_nil]. by eexists.
  - destruct (is_empty get); [|tally Hone]. simpl in Hnil.
    apply app_nil in Hnil as [Hfields Hres]. by eexists.
  - destruct (is_empty get); [|tally Hone]. destruct (is_empty put); [|tally Hone].
    simpl in Hnil. apply app_nil in Hnil as [Hcfg [Hfields Hparams]%app_nil].
    exists (identifier +:+ ".task." +:+ task). split_and!; [|done|].
    + destruct cfg; [by left|]. right. apply is_empty_false.
      by destruct (is_empty path).
    + by destruct params.
Qed.

Lemma validatePlan_within c identifier plan q :
  validatePlan c identifier plan = [] -> within plan q ->
  exists identifier', validatePlan c identifier' q = [].
Proof.
  intros Hnil Hwithin. revert identifier Hnil.
  induction Hwithin as [plan|plan p q Hchild _ IH]; intros identifier Hnil; [by eexists|].
  destruct (proj1 (validatePlan_nil _ _ _ Hnil) p Hchild) as [identifier' Hp]. by eapply IH.
Qed.

(** X13.  When validatePlan returns no message for a plan, every node of
    the plan, the hooks and their own steps included, names exactly one of
    the six actions. *)
Theorem validatePlan_nil_one_action c identifier plan q :
  validatePlan c identifier plan = [] -> within plan q -> actionCount q = 1%nat.
Proof.
  intros Hnil Hwithin.
  destruct (validatePlan_within _ _ _ _ Hnil Hwithin) as [identifier' Hq].
  by eapply validatePlan_one_action.
Qed.

Lemma fieldSet_false plan :
  (fieldSet plan "resource" = false <-> Resource plan = "") /\
  (fieldSet plan "passed" = false <-> Passed plan = []) /\
  (fieldSet plan "trigger" = false <-> Trigger plan = false) /\
  (fieldSet plan "privileged" = false <-> Privileged plan = false) /\
  (fieldSet plan "config" = false <-> Plan_TaskConfig plan = None) /\
  (fieldSet plan "file" = false <-> Plan_TaskConfigPath plan = "").
Proof.
  split_and!.
  - change (fieldSet plan "resource") with (negb (is_empty (Resource plan))).
    by rewrite negb_false_iff, is_empty_true.
  - change (fieldSet plan "passed") with (negb (bool_decide (Passed plan = []))).
    by rewrite negb_false_iff, bool_decide_eq_true.
  - done.
  - done.
  - change (fieldSet plan "config") with (bool_decide (Plan_TaskConfig plan <> None)).
    rewrite bool_decide_eq_false. destruct (Plan_TaskConfig plan); split; try done.
    + intros Hn. by destruct Hn.
    + intros _ Hn. by apply Hn.
  - change (fieldSet plan "file") with (negb (is_empty (Plan_TaskConfigPath plan))).
    by rewrite negb_false_iff, is_empty_true.
Qed.

(** X14.  When validatePlan returns no message for a plan, every get in it
    names a resource that Lookup finds (its resource field when that is
    set, its own name otherwise), every job of its passed list is found
    and has the plan's resource among its inputs or outputs, and it sets
    none of privileged, config and file. *)
Theorem validatePlan_nil_get c identifier plan q :
  validatePlan c identifier plan = [] -> within plan q -> Get q <> "" ->
  is_Some (ResourceConfigs_Lookup (Resources c)
             (if is_empty (Resource q) then Get q else Resource q)) /\
  Forall (fun job =>
            exists jobConfig,
              JobConfigs_Lookup (Jobs c) job = Some jobConfig /\
              (PlanConfig_ResourceName q ∈ JobConfig_Inputs jobConfig \/
               PlanConfig_ResourceName q ∈ JobConfig_Outputs jobConfig))
         (Passed q) /\
  Privileged q = false /\ Plan_TaskConfig q = None /\ Plan_TaskConfigPath q = "".
Proof.
  intros Hnil Hwithin Hget.
  destruct (validatePlan_within _ _ _ _ Hnil Hwithin) as [identifier' Hq].
  destruct (validatePlan_nil_leaf _ _ _ Hq) as [Hleaf _].
  destruct (Hleaf Hget) as (sub & Hfields & Hres & Hpassed).
  apply validateInapplicableFields_nil in Hfields.
  apply resourceCheck_nil in Hres. apply passedCheck_nil in Hpassed.
  inversion_clear Hfields as [|? ? Hpriv Hfields'].
  inversion_clear Hfields' as [|? ? Hcfg Hfields].
  inversion_clear Hfields as [|? ? Hfile _].
  destruct (fieldSet_false q) as (_ & _ & _ & Hp & Hc & Hf).
  split_and!; [done|done|by apply Hp|by apply Hc|by apply Hf].
Qed.

(** X15.  When validatePlan returns no message for a plan, every put in it
    names a resource that Lookup finds, and sets none of passed, trigger,
    privileged, config and file. *)
Theorem validatePlan_nil_put c identifier plan q :
  validatePlan c identifier plan = [] -> within plan q -> Put q <> "" ->
  is_Some (ResourceConfigs_Lookup (Resources c)
             (if is_empty (Resource q) then Put q else Resource q)) /\
  Passed q = [] /\ Trigger q = false /\
  Privileged q = false /\ Plan_TaskConfig q = None /\ Plan_TaskConfigPath q = "".
Proof.
  intros Hnil Hwithin Hput.
  destruct (validatePlan_within _ _ _ _ Hnil Hwithin) as [identifier' Hq].
  destruct (validatePlan_nil_leaf _ _ _ Hq) as (_ & Hleaf & _).
  destruct (Hleaf Hput) as (sub & Hfields & Hres).
  apply validateInapplicableFields_nil in Hfields. apply resourceCheck_nil in Hres.
  inversion_clear Hfields as [|? ? Hpassed Hfields'].
  inversion_clear Hfields' as [|? ? Htrig Hfields].
  inversion_clear Hfields as [|? ? Hpriv Hfields'].
  inversion_clear Hfields' as [|? ? Hcfg Hfields].
  inversion_clear Hfields as [|? ? Hfile _].
  destruct (fieldSet_false q) as (_ & Hpa & Ht & Hp & Hc & Hf).
  split_and!; [done|by apply Hpa|by apply Ht|by apply Hp|by apply Hc|by apply Hf].
Qed.

(** X16.  When validatePlan returns no message for a plan, every task in
    it has a configuration or a configuration path, carries no params, and
    sets none of resource, passed and trigger. *)
Theorem validatePlan_nil_task c identifier plan q :
  validatePlan c identifier plan = [] -> within plan q -> Task q <> "" ->
  (Plan_TaskConfig q <> None \/ Plan_TaskConfigPath q <> "") /\
  Params q = None /\
  Resource q = "" /\ Passed q = [] /\ Trigger q = false.
Proof.
  intros Hnil Hwithin Htask.
  destruct (validatePlan_within _ _ _ _ Hnil Hwithin) as [identifier' Hq].
  destruct (validatePlan_nil_leaf _ _ _ Hq) as (_ & _ & Hleaf).
  destruct (Hleaf Htask) as (sub & Hcfg & Hfields & Hparams).
  apply validateInapplicableFields_nil in Hfields.
  inversion_clear Hfields as [|? ? Hres Hfields'].
  inversion_clear Hfields' as [|? ? Hpassed Hfields].
  inversion_clear Hfields as [|? ? Htrig _].
  destruct (fieldSet_false q) as (Hr & Hpa & Ht & _).
  split_and!; [done|done|by apply Hr|by apply Hpa|by apply Ht].
Qed.

(** X17.  When validatePlan returns no message for a plan, the timeout of
    every node that has one parses; a timeout step built with that string
    then gets past the parse of its Run, whatever its child: once the
    child is ready or has exited, Run creates the timer for the parsed
    duration. *)
Theorem validatePlan_nil_timeout c identifier plan q :
  validatePlan c identifier plan = [] -> within plan q -> config.Timeout q <> "" ->
  exists d,
    ParseDuration (config.Timeout q) = inl d /\
    forall factory prev repo sch,
      timeout_step.childReadyOrExited sch = true ->
      timeout_step.NewTimer d ∈
        (timeout_step.Run
           (timeout_step.Using (timeout_step.Timeout factory (config.Timeout q)) prev repo)
           sch).1.2.
Proof.
  intros Hnil Hwithin Hset.
  destruct (validatePlan_within _ _ _ _ Hnil Hwithin) as [identifier' Hq].
  destruct (proj2 (validatePlan_nil _ _ _ Hq) Hset) as [d Hd].
  exists d. split; [done|]. intros factory prev repo sch Hready.
  unfold timeout_step.Run. simpl. rewrite Hd, Hready. simpl.
  set (st0 := timeout_step.mkLoop _ _ _ _ _).
  assert (Hin : timeout_step.NewTimer d ∈ timeout_step.done (timeout_step.dance st0 (timeout_step.selects sch))).
  { rewrite dance_done. simpl. set_solver. }
  destruct (timeout_step.exited _); simpl; [|done].
  destruct (timeout_step.timeoutErr _); [done|]. by destruct (timeout_step.runErr _).
Qed.

(** X18.  A node on which not exactly one action is set gets exactly one
    message, and nothing else of it is validated: not its steps, its hooks
    or its timeout.  With no action set the message says so. *)
Theorem validatePlan_action_count c identifier plan :
  actionCount plan <> 1%nat ->
  exists message,
    validatePlan c identifier plan = [message] /\
    (actionCount plan = 0%nat -> message = identifier +:+ " has no action specified").
Proof.
  intros Hcount. rewrite <- (found_count identifier) in *.
  assert (Hvalid : (IsValid (foundOf identifier plan)).1 = false).
  { destruct (IsValid (foundOf identifier plan)).1 eqn:Hvalid; [|done].
    by apply IsValid_one in Hvalid. }
  eexists. split; [by apply validatePlan_invalid|].
  intros Hzero. unfold IsValid. rewrite foundOf_identifier.
  by destruct (found (foundOf identifier plan)).
Qed.

(** Induction on a plan, with the property at hand for every plan right
    below it. *)
Lemma PlanConfig_child_ind (P : PlanConfig -> Prop) :
  (forall plan, (forall p, child plan p -> P p) -> P plan) -> forall plan, P plan.
Proof.
  intros Hstep. fix IH 1. intros plan.
  destruct plan as [get put task do agg try ens suc fai cond res passed trig priv cfg path
                      params tmo].
  assert (Hdo : forall seq, do = Some seq -> Forall P seq).
  { destruct do as [seq0|]; [|clear IH; done].
    assert (Forall P seq0) as Hall
      by (induction seq0 as [|a seq0 IHs]; constructor; [apply IH|exact IHs]).
    clear IH. by intros seq [= <-]. }
  assert (Hagg : forall seq, agg = Some seq -> Forall P seq).
  { destruct agg as [seq0|]; [|clear IH; done].
    assert (Forall P seq0) as Hall
      by (induction seq0 as [|a seq0 IHs]; constructor; [apply IH|exact IHs]).
    clear IH. by intros seq [= <-]. }
  assert (Htry : forall p, try = Some p -> P p).
  { destruct try as [p0|]; [|clear IH; done]. pose proof (IH p0) as Hp. clear IH. by intros p [= <-]. }
  assert (Hens : forall p, ens = Some p -> P p).
  { destruct ens as [p0|]; [|clear IH; done]. pose proof (IH p0) as Hp. clear IH. by intros p [= <-]. }
  assert (Hsuc : forall p, suc = Some p -> P p).
  { destruct suc as [p0|]; [|clear IH; done]. pose proof (IH p0) as Hp. clear IH. by intros p [= <-]. }
  assert (Hfai : forall p, fai = Some p -> P p).
  { destruct fai as [p0|]; [|clear IH; done]. pose proof (IH p0) as Hp. clear IH. by intros p [= <-]. }
  clear IH. apply Hstep.
  intros p [seq Hd Hin|seq Ha Hin|Ht|He|Hs|Hf]; simpl in *.
  - eapply Forall_forall; [by apply Hdo|done].
  - eapply Forall_forall; [by apply Hagg|done].
  - by apply Htry.
  - by apply Hens.
  - by apply Hsuc.
  - by apply Hfai.
Qed.

Lemma stepMatches_unfold predicate planStep :
  stepMatches predicate planStep =
  match Aggregate planStep with
  | Some seq => existsb (stepMatches predicate) seq
  | None => false
  end ||
  match Do planStep with
  | Some seq => existsb (stepMatches predicate) seq
  | None => false
  end ||
  predicate planStep.
Proof. by destruct planStep. Qed.

Lemma existsb_elem {A} (f : A -> bool) (l : list A) :
  existsb f l = true <-> exists x, x ∈ l /\ f x = true.
Proof. rewrite existsb_exists. by setoid_rewrite list_elem_of_In. Qed.

Lemma stepMatches_nested predicate planStep :
  stepMatches predicate planStep = true <->
  exists q, nested planStep q /\ predicate q = true.
Proof.
  split.
  - revert planStep. apply (PlanConfig_child_ind (fun planStep => _ -> _)).
    intros planStep IH. rewrite stepMatches_unfold, !orb_true_iff.
    intros [[Hm|Hm]|Hm].
    + destruct (Aggregate planStep) as [seq|] eqn:Hagg; [|done].
      apply existsb_elem in Hm as (p & Hin & Hp).
      destruct (IH p (child_aggregate _ _ seq Hagg Hin) Hp) as (q & Hq & Hpred).
      exists q. split; [|done]. by eapply nested_aggregate.
    + destruct (Do planStep) as [seq|] eqn:Hdo; [|done].
      apply existsb_elem in Hm as (p & Hin & Hp).
      destruct (IH p (child_do _ _ seq Hdo Hin) Hp) as (q & Hq & Hpred).
      exists q. split; [|done]. by eapply nested_do.
    + exists planStep. split; [constructor|done].
  - intros (q & Hnested & Hpred).
    induction Hnested as [step|step seq p q Hdo Hin _ IH|step seq p q Hagg Hin _ IH];
      rewrite stepMatches_unfold, !orb_true_iff.
    + by right.
    + left. right. rewrite Hdo. apply existsb_elem. exists p. split; [done|by apply IH].
    + left. left. rewrite Hagg. apply existsb_elem. exists p. split; [done|by apply IH].
Qed.

(** X19.  doesAnyStepMatch answers true exactly when the predicate holds of
    a step of the sequence or of a step reached from one through do and
    aggregate sequences; it does not look into a try or into a hook. *)
Theorem doesAnyStepMatch_iff (planSequence : PlanSequence) (predicate : PlanConfig -> bool) :
  doesAnyStepMatch planSequence predicate = true <->
  exists planStep q, planStep ∈ planSequence /\ nested planStep q /\ predicate q = true.
Proof.
  unfold doesAnyStepMatch. rewrite existsb_elem.
  setoid_rewrite stepMatches_nested. split.
  - intros (planStep & Hin & q & Hq & Hpred). by exists planStep, q.
  - intros (planStep & q & Hin & Hq & Hpred). exists planStep. split; [done|by exists q].
Qed.

Lemma anyStep_false (planSequence : PlanSequence) (predicate : PlanConfig -> bool) :
  existsb (stepMatches predicate) planSequence = false <->
  ~ exists planStep q, planStep ∈ planSequence /\ nested planStep q /\ predicate q = true.
Proof.
  rewrite <- not_true_iff_false, existsb_elem. setoid_rewrite stepMatches_nested.
  split; intros Hnot Hex; apply Hnot.
  - destruct Hex as (planStep & q & Hin & Hq & Hpred). exists planStep. split; [done|by exists q].
  - destruct Hex as (planStep & Hin & q & Hq & Hpred). by exists planStep, q.
Qed.

(** X20.  validateConditionals returns its message exactly when, among the
    steps of the sequence and the steps reached from them through do and
    aggregate sequences, one has conditions and one has a hook; conditions
    or hooks that sit inside a try or inside a hook are not seen. *)
Theorem validateConditionals_iff (identifier : string) (planSequence : PlanSequence) :
  validateConditionals identifier planSequence <> [] <->
  (exists planStep q,
     planStep ∈ planSequence /\ nested planStep q /\ Conditions q <> None) /\
  (exists planStep q,
     planStep ∈ planSequence /\ nested planStep q /\
     (Failure q <> None \/ Ensure q <> None \/ config.Success q <> None)).
Proof.
  unfold validateConditionals, hasConditionals, hasHooks, doesAnyStepMatch.
  destruct (existsb _ planSequence) eqn:Hc; simpl.
  - apply existsb_elem in Hc as (stepC & HinC & Hc).
    apply stepMatches_nested in Hc as (qc & Hqc & Hc). apply bool_decide_eq_true in Hc.
    destruct (existsb _ planSequence) eqn:Hh; simpl.
    + apply existsb_elem in Hh as (stepH & HinH & Hh).
      apply stepMatches_nested in Hh as (qh & Hqh & Hh).
      rewrite !orb_true_iff, !bool_decide_eq_true in Hh.
      split; [intros _|done]. split; [by exists stepC, qc|].
      exists stepH, qh. split_and!; [done|done|tauto].
    + split; [done|]. intros [_ (stepH & qh & HinH & Hqh & Hhook)].
      apply anyStep_false in Hh as []. exists stepH, qh. split_and!; [done|done|].
      rewrite !orb_true_iff, !bool_decide_eq_true. tauto.
  - split; [done|]. intros [(stepC & qc & HinC & Hqc & Hcond) _].
    apply anyStep_false in Hc as []. exists stepC, qc. split_and!; [done|done|].
    by apply bool_decide_eq_true.
Qed.

Lemma inputsLoop_nil c identifier i l :
  inputsLoop c identifier i l = [] <->
  Forall (fun input =>
            Input_Resource input <> "" /\
            is_Some (ResourceConfigs_Lookup (Resources c) (Input_Resource input)) /\
            Forall (fun job => is_Some (JobConfigs_Lookup (Jobs c) job)) (Input_Passed input)) l.
Proof.
  revert i. induction l as [|input l IH]; intros i; simpl.
  - split; [constructor|done].
  - rewrite Forall_cons, !app_nil, IH, flat_map_nil.
    assert (Forall (fun job =>
                      (if exists_job c job then []
                       else [inputIdentifierOf identifier i input +:+
                             ".passed references an unknown job ('" +:+ job +:+ "')"]) = [])
                   (Input_Passed input) <->
            Forall (fun job => is_Some (JobConfigs_Lookup (Jobs c) job)) (Input_Passed input))
      as ->.
    { apply Forall_proper; [|done]. intros job. by rewrite unless_nil, exists_job_true. }
    rewrite <- exists_resource_true.
    destruct (is_empty (Input_Resource input)) eqn:Hres.
    + apply is_empty_true in Hres. split; [by intros [? _]|]. by intros [[? _] _].
    + apply is_empty_false in Hres. rewrite unless_nil. tauto.
Qed.

Lemma outputsLoop_nil c identifier i l :
  outputsLoop c identifier i l = [] <->
  Forall (fun output =>
            Output_Resource output <> "" /\
            is_Some (ResourceConfigs_Lookup (Resources c) (Output_Resource output))) l.
Proof.
  revert i. induction l as [|output l IH]; intros i; simpl.
  - split; [constructor|done].
  - rewrite Forall_cons, !app_nil, IH. rewrite <- exists_resource_true.
    destruct (is_empty (Output_Resource output)) eqn:Hres.
    + apply is_empty_true in Hres. split; [by intros [? _]|]. by intros [[? _] _].
    + apply is_empty_false in Hres. rewrite unless_nil. tauto.
Qed.

(** X21.  validateInputOutputConfig returns no message exactly when every
    input and every output of the job names a resource that Lookup finds,
    and Lookup finds every job of every input's passed list. *)
Theorem validateInputOutputConfig_nil_iff c job identifier :
  validateInputOutputConfig c job identifier = [] <->
  Forall (fun input =>
            Input_Resource input <> "" /\
            is_Some (ResourceConfigs_Lookup (Resources c) (Input_Resource input)) /\
            Forall (fun job => is_Some (JobConfigs_Lookup (Jobs c) job)) (Input_Passed input))
         (InputConfigs job) /\
  Forall (fun output =>
            Output_Resource output <> "" /\
            is_Some (ResourceConfigs_Lookup (Resources c) (Output_Resource output)))
         (OutputConfigs job).
Proof.
  unfold validateInputOutputConfig. by rewrite app_nil, inputsLoop_nil, outputsLoop_nil.
Qed.

Lemma jobsLoop_nil_plans c names i l :
  jobsLoop c names i l = [] ->
  Forall (fun job => exists identifier, validatePlan c identifier (planOf job) = []) l.
Proof.
  revert names i. induction l as [|job l IH]; intros names i Hnil; [constructor|].
  cbn [jobsLoop] in Hnil.
  destruct (sameName "jobs" names i (Job_Name job)) as [names' dup].
  do 4 apply app_nil in Hnil as [_ Hnil]. apply app_nil in Hnil as [Hplan Hnil].
  apply app_nil in Hnil as [_ Hnil]. constructor; [by eexists|by eapply IH].
Qed.

Lemma ValidateConfig_nil c :
  ValidateConfig c = None <->
  validateGroups c = None /\ validateResources c = None /\
  validateJobs c = None /\ validatePlugins c = None.
Proof.
  unfold ValidateConfig.
  destruct (validateGroups c), (validateResources c), (validateJobs c), (validatePlugins c);
    split; try done; by intros (? & ? & ? & ?).
Qed.

(** X22.  In a configuration that ValidateConfig accepts, every timeout in
    the plan of every job parses: that of a step, of a step inside a do,
    an aggregate or a try, and of a hook. *)
Theorem ValidateConfig_nil_timeouts c job seq planStep q :
  ValidateConfig c = None ->
  job ∈ Jobs c -> Plan job = Some seq -> planStep ∈ seq -> within planStep q ->
  config.Timeout q <> "" ->
  exists d, ParseDuration (config.Timeout q) = inl d.
Proof.
  intros Hnil Hjob Hplan Hstep Hwithin Hset.
  apply ValidateConfig_nil in Hnil as (_ & _ & Hjobs & _).
  unfold validateJobs in Hjobs. apply compositeErr_nil, jobsLoop_nil_plans in Hjobs.
  destruct (proj1 (Forall_forall _ _) Hjobs job Hjob) as [identifier Hvalid].
  assert (Hq : within (planOf job) q).
  { apply (within_child _ planStep); [|done].
    apply (child_do _ _ seq); [|done]. simpl. by rewrite Hplan. }
  destruct (validatePlan_within _ _ _ _ Hvalid Hq) as [identifier' Hnode].
  by apply (validatePlan_nil _ _ _ Hnode).
Qed.

(** X23.  In a configuration that ValidateConfig accepts, every get and
    every put in the plan of every job, at any depth and in the hooks,
    names a resource that Lookup finds: its resource field when that is
    set, its own name otherwise. *)
Theorem ValidateConfig_nil_resources c job seq planStep q :
  ValidateConfig c = None ->
  job ∈ Jobs c -> Plan job = Some seq -> planStep ∈ seq -> within planStep q ->
  (Get q <> "" ->
   is_Some (ResourceConfigs_Lookup (Resources c)
              (if is_empty (Resource q) then Get q else Resource q))) /\
  (Put q <> "" ->
   is_Some (ResourceConfigs_Lookup (Resources c)
              (if is_empty (Resource q) then Put q else Resource q))).
Proof.
  intros Hnil Hjob Hplan Hstep Hwithin.
  apply ValidateConfig_nil in Hnil as (_ & _ & Hjobs & _).
  unfold validateJobs in Hjobs. apply compositeErr_nil, jobsLoop_nil_plans in Hjobs.
  destruct (proj1 (Forall_forall _ _) Hjobs job Hjob) as [identifier Hvalid].
  assert (Hq : within (planOf job) q).
  { apply (within_child _ planStep); [|done].
    apply (child_do _ _ seq); [|done]. simpl. by rewrite Hplan. }
  destruct (validatePlan_within _ _ _ _ Hvalid Hq) as [identifier' Hnode].
  destruct (validatePlan_nil_leaf _ _ _ Hnode) as (Hget & Hput & _).
  split; intros Hset.
  - destruct (Hget Hset) as (sub & _ & Hres & _). by apply resourceCheck_nil in Hres.
  - destruct (Hput Hset) as (sub & _ & Hres). by apply resourceCheck_nil in Hres.
Qed.

(** X24.  The message of an error that ValidateConfig returns is the bare
    heading exactly when the plugins are the only part of the
    configuration that did not validate. *)
Theorem ValidateConfig_bare_heading_iff c err :
  ValidateConfig c = Some err ->
  (Error err = "invalid configuration:" <->
   validateGroups c = None /\ validateResources c = None /\ validateJobs c = None /\
   validatePlugins c <> None).
Proof.
  unfold ValidateConfig. intros Herr.
  destruct (validateGroups c) as [g|], (validateResources c) as [r|],
    (validateJobs c) as [j|], (validatePlugins c) as [p|];
    try done; injection Herr as <-; unfold Error; cbn [GroupsErr ResourcesErr JobsErr app];
    (split; [intros Heq; try (by apply Join_heading_longer in Heq); done
            |by intros (? & ? & ? & ?)]).
Qed.

End PlanValidation.

(** ** The validator on a pipeline *)

Section ValidatorInstances.
Import exec config config_facts fixtures gotime.

Lemma validateJobs_nil_names_witness :
  validateJobs pipeline = None /\
  Forall (fun job =>
            Job_Name job <> "" /\
            (Plan job <> None ->
             Job_TaskConfig job = None /\ Job_TaskConfigPath job = "" /\
             InputConfigs job = [] /\ OutputConfigs job = [])) (Jobs pipeline) /\
  NoDup (map Job_Name (Jobs pipeline)).
Proof.
  split; [vm_compute; reflexivity|].
  apply (validateJobs_nil_names pipeline). vm_compute. reflexivity.
Defined.

Lemma validatePlugins_reports_duplicate_witness :
  exists msgs,
    validatePlugins twoSlacks = Some (Join msgs nl) /\
    "plugins[0] and plugins[2] have the same name ('slack')" ∈ msgs.
Proof.
  apply (validatePlugins_reports_duplicate twoSlacks 0 2
           (mkPluginConfig "slack" "slack-notifier") (mkPluginConfig "slack" "other-notifier"));
    [reflexivity|reflexivity|lia|discriminate|reflexivity|intros k r Hk; lia].
Defined.

Lemma validatePlan_nil_one_action_witness :
  validatePlan pipeline "jobs.test.plan" testPlan = [] /\ actionCount unitTask = 1%nat.
Proof.
  split; [vm_compute; reflexivity|].
  apply (validatePlan_nil_one_action pipeline "jobs.test.plan" testPlan unitTask);
    [vm_compute; reflexivity|].
  apply (within_child testPlan tryUnit);
    [apply (child_do _ _ [getRepo; tryUnit]); [reflexivity|set_solver]|].
  apply (within_child tryUnit unitTask); [by apply child_try|apply within_here].
Defined.

Lemma validatePlan_action_count_witness :
  actionCount getAndPut = 2%nat /\
  exists message,
    validatePlan pipeline "jobs.test.plan[0]" getAndPut = [message] /\
    (actionCount getAndPut = 0%nat ->
     message = "jobs.test.plan[0]" +:+ " has no action specified").
Proof.
  split; [reflexivity|].
  apply (validatePlan_action_count pipeline "jobs.test.plan[0]" getAndPut).
  vm_compute. discriminate.
Defined.

Lemma validatePlan_nil_get_witness :
  is_Some (ResourceConfigs_Lookup (Resources pipeline) "repo") /\
  Forall (fun job =>
            exists jobConfig,
              JobConfigs_Lookup (Jobs pipeline) job = Some jobConfig /\
              (PlanConfig_ResourceName getRepo ∈ JobConfig_Inputs jobConfig \/
               PlanConfig_ResourceName getRepo ∈ JobConfig_Outputs jobConfig))
         ["build"] /\
  Privileged getRepo = false /\ Plan_TaskConfig getRepo = None /\
  Plan_TaskConfigPath getRepo = "".
Proof.
  apply (validatePlan_nil_get pipeline "jobs.test.plan" testPlan getRepo);
    [vm_compute; reflexivity| |discriminate].
  apply (within_child testPlan getRepo); [|apply within_here].
  apply (child_do _ _ [getRepo; tryUnit]); [reflexivity|set_solver].
Defined.

Lemma validatePlan_nil_put_witness :
  is_Some (ResourceConfigs_Lookup (Resources pipeline) "registry") /\
  Passed putImage = [] /\ Trigger putImage = false /\
  Privileged putImage = false /\ Plan_TaskConfig putImage = None /\
  Plan_TaskConfigPath putImage = "".
Proof.
  apply (validatePlan_nil_put pipeline "jobs.test.plan" testPlan putImage);
    [vm_compute; reflexivity| |discriminate].
  apply (within_child testPlan tryUnit);
    [apply (child_do _ _ [getRepo; tryUnit]); [reflexivity|set_solver]|].
  apply (within_child tryUnit putImage); [by apply child_ensure|apply within_here].
Defined.

Lemma validatePlan_nil_task_witness :
  (Plan_TaskConfig unitTask <> None \/ Plan_TaskConfigPath unitTask <> "") /\
  Params unitTask = None /\
  Resource unitTask = "" /\ Passed unitTask = [] /\ Trigger unitTask = false.
Proof.
  apply (validatePlan_nil_task pipeline "jobs.test.plan" testPlan unitTask);
    [vm_compute; reflexivity| |discriminate].
  apply (within_child testPlan tryUnit);
    [apply (child_do _ _ [getRepo; tryUnit]); [reflexivity|set_solver]|].
  apply (within_child tryUnit unitTask); [by apply child_try|apply within_here].
Defined.

Lemma validatePlan_nil_timeout_witness :
  exists d,
    ParseDuration "1h" = inl d /\
    forall factory prev repo sch,
      timeout_step.childReadyOrExited sch = true ->
      timeout_step.NewTimer d ∈
        (timeout_step.Run (timeout_step.Using (timeout_step.Timeout factory "1h") prev repo)
           sch).1.2.
Proof.
  apply (validatePlan_nil_timeout pipeline "jobs.test.plan" testPlan unitTask);
    [vm_compute; reflexivity| |discriminate].
  apply (within_child testPlan tryUnit);
    [apply (child_do _ _ [getRepo; tryUnit]); [reflexivity|set_solver]|].
  apply (within_child tryUnit unitTask); [by apply child_try|apply within_here].
Defined.

Lemma ValidateConfig_nil_timeouts_witness :
  ValidateConfig pipeline = None /\ exists d, ParseDuration "1h" = inl d.
Proof.
  split; [vm_compute; reflexivity|].
  apply (ValidateConfig_nil_timeouts pipeline
           (mkJobConfig "test" (Some [getRepo; tryUnit]) None "" [] [])
           [getRepo; tryUnit] tryUnit unitTask);
    [vm_compute; reflexivity|set_solver|reflexivity|set_solver| |discriminate].
  apply (within_child tryUnit unitTask); [by apply child_try|apply within_here].
Defined.

Lemma ValidateConfig_nil_resources_witness :
  ValidateConfig pipeline = None /\
  (Put putImage <> "" ->
   is_Some (ResourceConfigs_Lookup (Resources pipeline) "registry")).
Proof.
  split; [vm_compute; reflexivity|].
  apply (ValidateConfig_nil_resources pipeline
           (mkJobConfig "test" (Some [getRepo; tryUnit]) None "" [] [])
           [getRepo; tryUnit] tryUnit putImage);
    [vm_compute; reflexivity|set_solver|reflexivity|set_solver|].
  apply (within_child tryUnit putImage); [by apply child_ensure|apply within_here].
Defined.

Lemma ValidateConfig_bare_heading_iff_witness :
  (Error (mkInvalidConfigError None None None
            (Some ("plugins[0] has no name" +:+ nl +:+ "plugins[0] has no image"))) =
   "invalid configuration:") <->
  validateGroups namelessPlugin = None /\ validateResources namelessPlugin = None /\
  validateJobs namelessPlugin = None /\ validatePlugins namelessPlugin <> None.
Proof.
  apply (ValidateConfig_bare_heading_iff namelessPlugin). vm_compute. reflexivity.
Defined.

Lemma indent_compositeErr_witness :
  SplitLines (indent ("plugins[0] has no name" +:+ nl +:+ "plugins[0] has no image")) =
  [tab +:+ "plugins[0] has no name"; tab +:+ "plugins[0] has no image"].
Proof.
  apply (indent_compositeErr ["plugins[0] has no name"; "plugins[0] has no image"]);
    [reflexivity|by repeat constructor].
Defined.

End ValidatorInstances.
